(** * Cancellation-aware snapshot waiting: Deferred, CancellationToken,
      SnapshotListener

    A shallow embedding of [util.ts] (classes [Deferred] and
    [SnapshotListener]) and [cancellation_token.ts] (classes
    [CancellationToken] and [CancellationTokenSource]), both in
    [src/common].

    JavaScript objects are records, the mutable store is passed explicitly,
    and the one [await] of [waitForSnapshot] splits the method into two
    synchronous segments: the segment run by the call itself and the segment
    run when the awaited promise has settled. *)

From stdpp Require Import base tactics option list strings numbers gmap pretty.

Open Scope string_scope.
Open Scope list_scope.

(** ** Errors thrown by the code *)

(** [FirestoreError] of the Firestore SDK; only its identity matters here. *)
Record FirestoreError := { code : string; message : string }.

(** The values that the modelled code throws: a plain [Error], the
    [CancellationTokenCancelledError] of [cancellation_token.ts], and the
    [FirestoreError] stored by [observer.error]. *)
Inductive exn :=
| Error (msg : string)
| CancellationTokenCancelledError (msg : string)
| Firestore (e : FirestoreError).

(** ** Promises and [Deferred] *)

Module Promise.
(** The state of an ECMAScript promise. *)
Inductive state (T : Type) :=
| pending
| fulfilled (value : T)
| rejected (reason : exn).
Arguments pending {T}.
Arguments fulfilled {T} value.
Arguments rejected {T} reason.

(** The pair of resolving functions handed to the executor of
    [new Promise(...)]: they share one "already resolved" flag, so that
    only the first call of either has an effect.  Values are plain (not
    thenables), as everywhere in this code base. *)
Definition resolveFunction {T} (value : T) (p : state T) : state T :=
  match p with
  | pending => fulfilled value
  | _ => p
  end.

Definition rejectFunction {T} (reason : exn) (p : state T) : state T :=
  match p with
  | pending => rejected reason
  | _ => p
  end.

Definition settled {T} (p : state T) : bool :=
  match p with
  | pending => false
  | _ => true
  end.
End Promise.

Module Deferred.
(** [class Deferred<T>]: [_resolve] and [_reject] are the resolving
    functions captured from the executor of [_promise], so the object is
    determined by the state of that promise. *)
Record t (T : Type) := { _promise : Promise.state T }.
Arguments _promise {T} _.

(** [constructor()] *)
Definition new {T} : t T := {| _promise := Promise.pending |}.

(** [get promise()] *)
Definition promise {T} (d : t T) : Promise.state T := _promise d.

(** [resolve(result)] *)
Definition resolve {T} (result : T) (d : t T) : t T :=
  {| _promise := Promise.resolveFunction result (_promise d) |}.

(** [reject(error)] *)
Definition reject {T} (error : exn) (d : t T) : t T :=
  {| _promise := Promise.rejectFunction error (_promise d) |}.

(** The calls a client can make on a [Deferred]. *)
Inductive call (T : Type) :=
| Resolve (result : T)
| Reject (error : exn).
Arguments Resolve {T} result.
Arguments Reject {T} error.

Definition perform {T} (d : t T) (c : call T) : t T :=
  match c with
  | Resolve result => resolve result d
  | Reject error => reject error d
  end.

(** The outcome that a single call gives to a pending promise. *)
Definition outcome_of {T} (c : call T) : Promise.state T :=
  match c with
  | Resolve result => Promise.fulfilled result
  | Reject error => Promise.rejected error
  end.
End Deferred.

(** ** The store shared by the token and the listener *)

(** A cancellation callback is a closure [() => void].  Two kinds occur: the
    closure built by [registerDeferred], which rejects a [Deferred] of the
    heap, and closures supplied by callers (such as the [unsubscribe]
    function that [run_the_test.ts] registers).  Caller-supplied closures
    are opaque and act outside the token and the listener; an invocation is
    recorded in [calls]. *)
Inductive callback :=
| RejectDeferred (deferred : nat) (message : option string)
| External (tag : nat).

(** The function returned by [onCancelled]: either [() => {}] or the closure
    that deletes [callbackId] from the callback map. *)
Inductive unregister :=
| Noop
| DeleteCallback (callbackId : nat).

(** [heap]: the [Deferred<void>] objects allocated by [new Deferred()], a
    reference being an index; [calls]: the caller-supplied callbacks invoked
    so far, oldest first; [symbols]: the number of [Symbol()] values created
    so far, the next one being fresh. *)
Record World := {
  heap : list (Deferred.t unit);
  calls : list nat;
  symbols : nat
}.

Definition set_heap (h : list (Deferred.t unit)) (w : World) : World :=
  {| heap := h; calls := calls w; symbols := symbols w |}.

(** [new Deferred()]: the new object and its reference. *)
Definition alloc (w : World) : nat * World :=
  (length (heap w), set_heap (heap w ++ [Deferred.new]) w).

(** Calling a cancellation callback. *)
Definition invoke (cb : callback) (w : World) : World :=
  match cb with
  | RejectDeferred deferred message =>
      set_heap
        (alter
           (Deferred.reject
              (CancellationTokenCancelledError
                 (default "operation cancelled" message)))
           deferred (heap w))
        w
  | External tag =>
      {| heap := heap w; calls := calls w ++ [tag]; symbols := symbols w |}
  end.

(** ** [Map<Symbol, () => void>] *)

Module JsMap.
(** A JavaScript [Map] iterates in insertion order, so it is a list of
    entries with distinct keys. *)
Definition t (V : Type) := list (nat * V).

(** [Map.prototype.set]: an existing key keeps its position. *)
Fixpoint set {V} (key : nat) (value : V) (m : t V) : t V :=
  match m with
  | [] => [(key, value)]
  | (k, v) :: m' =>
      if decide (k = key) then (key, value) :: m'
      else (k, v) :: set key value m'
  end.

(** [Map.prototype.delete] *)
Fixpoint delete {V} (key : nat) (m : t V) : t V :=
  match m with
  | [] => []
  | (k, v) :: m' =>
      if decide (k = key) then delete key m' else (k, v) :: delete key m'
  end.

(** [Map.prototype.forEach], for a function acting on a store. *)
Definition forEach {V S} (f : V -> S -> S) (m : t V) (s : S) : S :=
  foldl (fun acc kv => f kv.2 acc) s m.

Definition keys {V} (m : t V) : list nat := m.*1.
End JsMap.

(** ** [CancellationToken] and [CancellationTokenSource] *)

Module CancellationToken.
Record t := {
  _cancelled : bool;
  _onCancelledCallbacks : JsMap.t callback;
  _onCancelledDeferred : Deferred.t unit
}.

(** [CancellationToken[CANCELLATION_TOKEN_CREATE]()] *)
Definition create : t :=
  {| _cancelled := false;
     _onCancelledCallbacks := [];
     _onCancelledDeferred := Deferred.new |}.

(** [get cancelled()] *)
Definition cancelled (tok : t) : bool := _cancelled tok.

(** [get promise()] *)
Definition promise (tok : t) : Promise.state unit :=
  Deferred.promise (_onCancelledDeferred tok).

(** [throwIfCancelled()]: the error thrown, if any. *)
Definition throwIfCancelled (tok : t) : option exn :=
  if _cancelled tok
  then Some (CancellationTokenCancelledError "operation cancelled")
  else None.

Definition set_callbacks (m : JsMap.t callback) (tok : t) : t :=
  {| _cancelled := _cancelled tok;
     _onCancelledCallbacks := m;
     _onCancelledDeferred := _onCancelledDeferred tok |}.

(** [onCancelled(callback)] *)
Definition onCancelled (cb : callback) (tok : t) (w : World)
  : unregister * t * World :=
  if _cancelled tok then (Noop, tok, invoke cb w)
  else
    let callbackId := symbols w in
    (DeleteCallback callbackId,
     set_callbacks (JsMap.set callbackId cb (_onCancelledCallbacks tok)) tok,
     {| heap := heap w; calls := calls w; symbols := S (symbols w) |}).

(** Calling a function returned by [onCancelled]. *)
Definition run_unregister (u : unregister) (tok : t) : t :=
  match u with
  | Noop => tok
  | DeleteCallback callbackId =>
      set_callbacks (JsMap.delete callbackId (_onCancelledCallbacks tok)) tok
  end.

(** [registerDeferred(deferred, message?)] *)
Definition registerDeferred (deferred : nat) (message : option string)
    (tok : t) (w : World) : unregister * t * World :=
  onCancelled (RejectDeferred deferred message) tok w.

(** [[CANCELLATION_TOKEN_CANCEL]()] *)
Definition cancel_token (tok : t) (w : World) : t * World :=
  ({| _cancelled := true;
      _onCancelledCallbacks := _onCancelledCallbacks tok;
      _onCancelledDeferred := Deferred.resolve () (_onCancelledDeferred tok) |},
   JsMap.forEach invoke (_onCancelledCallbacks tok) w).
End CancellationToken.

Module CancellationTokenSource.
(** The source holds one token, made by [constructor()]. *)
Definition new : CancellationToken.t := CancellationToken.create.

(** [cancel()] *)
Definition cancel (tok : CancellationToken.t) (w : World)
  : CancellationToken.t * World :=
  CancellationToken.cancel_token tok w.

(** [n] calls of [cancel()] in a row. *)
Fixpoint cancel_times (n : nat) (tok : CancellationToken.t) (w : World)
  : CancellationToken.t * World :=
  match n with
  | 0 => (tok, w)
  | S n' => let '(tok', w') := cancel tok w in cancel_times n' tok' w'
  end.
End CancellationTokenSource.

(** ** [SnapshotListener] *)

(** The part of a Firestore snapshot that the listener reads, and a payload
    ([snapshot.size] in [run_the_test.ts]) that tells snapshots apart. *)
Record SnapshotMetadata := { hasPendingWrites : bool; fromCache : bool }.
Record Snapshot := { metadata : SnapshotMetadata; size : nat }.

Module WaitForSnapshotOptions.
(** [interface WaitForSnapshotOptions]: both properties are optional. *)
Record t := { hasPendingWrites : option bool; fromCache : option bool }.
End WaitForSnapshotOptions.

(** What a synchronous segment of [waitForSnapshot] ends with: the local
    variables that are live across the [await].  The closure [onChange] is
    [() => deferred.resolve()], one per [Deferred], so the reference
    [deferred] stands for it too. *)
Record frame := {
  options : option WaitForSnapshotOptions.t;
  deferred : nat;
  unregisterDeferred : unregister
}.

(** The result of a segment: the promise of the call is fulfilled with a
    snapshot, is rejected with the error thrown, or the call is suspended at
    [await deferred.promise]. *)
Inductive result :=
| Returned (snapshot : Snapshot)
| Thrown (e : exn)
| Awaiting (f : frame).

Module SnapshotListener.
(** The private fields of the class. *)
Record t := {
  snapshots : list Snapshot;
  error : option FirestoreError;
  completed : bool;
  onChange : option nat
}.

(** A listener, the token given to its constructor, and the store. *)
Record State := {
  listener : t;
  cancellationToken : CancellationToken.t;
  world : World
}.

(** [constructor(cancellationToken)] *)
Definition new : t :=
  {| snapshots := []; error := None; completed := false; onChange := None |}.

Definition set_listener (l : t) (st : State) : State :=
  {| listener := l;
     cancellationToken := cancellationToken st;
     world := world st |}.

Definition set_snapshots (s : list Snapshot) (st : State) : State :=
  set_listener
    {| snapshots := s;
       error := error (listener st);
       completed := completed (listener st);
       onChange := onChange (listener st) |} st.

Definition set_onChange (c : option nat) (st : State) : State :=
  set_listener
    {| snapshots := snapshots (listener st);
       error := error (listener st);
       completed := completed (listener st);
       onChange := c |} st.

Definition set_token (tok : CancellationToken.t) (st : State) : State :=
  {| listener := listener st; cancellationToken := tok; world := world st |}.

(** [clear()]: [splice(0)] removes every element from index 0 on. *)
Definition clear (st : State) : State :=
  set_snapshots (take 0 (snapshots (listener st))) st.

(** [desired !== undefined && actual != desired] *)
Definition differs (desired : option bool) (actual : bool) : bool :=
  match desired with
  | None => false
  | Some d => negb (eqb actual d)
  end.

(** The inner loop [while (this.snapshots.length > 0)]: the snapshot
    returned, if any, and what is left of the buffer. *)
Fixpoint shift_loop (opts : option WaitForSnapshotOptions.t)
    (buffer : list Snapshot) : option Snapshot * list Snapshot :=
  match buffer with
  | [] => (None, [])
  | snapshot :: rest =>
      let desiredHasPendingWrites :=
        opts ≫= WaitForSnapshotOptions.hasPendingWrites in
      if differs desiredHasPendingWrites
           (hasPendingWrites (metadata snapshot))
      then shift_loop opts rest
      else
        let desiredFromCache := opts ≫= WaitForSnapshotOptions.fromCache in
        if differs desiredFromCache (fromCache (metadata snapshot))
        then shift_loop opts rest
        else (Some snapshot, rest)
  end.

(** One pass of [while (true)], up to the [await]. *)
Definition loop_pass (opts : option WaitForSnapshotOptions.t) (st : State)
  : result * State :=
  match onChange (listener st) with
  | Some _ => (Thrown (Error "illegal state: this.onChange !== null"), st)
  | None =>
      match error (listener st) with
      | Some e => (Thrown (Firestore e), st)
      | None =>
          if completed (listener st)
          then (Thrown (Error "listener is completed"), st)
          else
            match shift_loop opts (snapshots (listener st)) with
            | (Some snapshot, rest) =>
                (Returned snapshot, set_snapshots rest st)
            | (None, rest) =>
                let '(d, w1) := alloc (world st) in
                let '(unreg, tok, w2) :=
                  CancellationToken.registerDeferred d None
                    (cancellationToken st) w1 in
                (Awaiting
                   {| options := opts;
                      deferred := d;
                      unregisterDeferred := unreg |},
                 set_onChange (Some d)
                   (set_snapshots rest
                      {| listener := listener st;
                         cancellationToken := tok;
                         world := w2 |}))
            end
      end
  end.

(** [waitForSnapshot(options)], from the call to its first [await],
    [return] or [throw]. *)
Definition waitForSnapshot (opts : option WaitForSnapshotOptions.t)
    (st : State) : result * State :=
  match onChange (listener st) with
  | Some _ =>
      (Thrown
         (Error "only one call to waitForSnapshotFromServer() at a time"),
       st)
  | None => loop_pass opts st
  end.

(** The two [finally] blocks that run when [await deferred.promise] is
    left, whatever its outcome.  The inner block throws when [onChange] is
    not the closure installed before the [await], and then leaves the slot
    as it is; the outer block calls [unregisterDeferred()] in both cases. *)
Definition finally_blocks (f : frame) (st : State) : option exn * State :=
  if decide (onChange (listener st) = Some (deferred f)) then
    (None,
     set_token
       (CancellationToken.run_unregister (unregisterDeferred f)
          (cancellationToken st))
       (set_onChange None st))
  else
    (Some (Error "illegal state: this.onChange !== onChange"),
     set_token
       (CancellationToken.run_unregister (unregisterDeferred f)
          (cancellationToken st))
       st).

(** [waitForSnapshot] from the point where [await deferred.promise] is
    left to the next [await], [return] or [throw].  There is no result
    while the promise is pending. *)
Definition resume (f : frame) (st : State) : option (result * State) :=
  d ← heap (world st) !! deferred f;
  match Deferred.promise d with
  | Promise.pending => None
  | Promise.rejected reason =>
      let '(illegal, st') := finally_blocks f st in
      Some (Thrown (default reason illegal), st')
  | Promise.fulfilled _ =>
      let '(illegal, st') := finally_blocks f st in
      match illegal with
      | Some e => Some (Thrown e, st')
      | None => Some (loop_pass (options f) st')
      end
  end.

(** [this.onChange?.()] *)
Definition notify (st : State) : State :=
  match onChange (listener st) with
  | None => st
  | Some d =>
      {| listener := listener st;
         cancellationToken := cancellationToken st;
         world :=
           set_heap (alter (Deferred.resolve ()) d (heap (world st)))
             (world st) |}
  end.

(** [observer.next(snapshot)] *)
Definition observer_next (snapshot : Snapshot) (st : State) : State :=
  notify (set_snapshots (snapshots (listener st) ++ [snapshot]) st).

(** [observer.error(error)] *)
Definition observer_error (e : FirestoreError) (st : State) : State :=
  notify
    (set_listener
       {| snapshots := snapshots (listener st);
          error := Some e;
          completed := completed (listener st);
          onChange := onChange (listener st) |} st).

(** [observer.complete()] *)
Definition observer_complete (st : State) : State :=
  notify
    (set_listener
       {| snapshots := snapshots (listener st);
          error := error (listener st);
          completed := true;
          onChange := onChange (listener st) |} st).

(** The predicate that the two optional filters stand for. *)
Definition matching (opts : option WaitForSnapshotOptions.t)
    (snapshot : Snapshot) : bool :=
  negb (differs (opts ≫= WaitForSnapshotOptions.hasPendingWrites)
          (hasPendingWrites (metadata snapshot)))
  && negb (differs (opts ≫= WaitForSnapshotOptions.fromCache)
             (fromCache (metadata snapshot))).


End SnapshotListener.

(** ** The listener in its environment *)

Import SnapshotListener.

#[global] Instance unregister_eq_dec : EqDecision unregister.
Proof. solve_decision. Defined.

(** A configuration: the store and the calls of [waitForSnapshot] that are
    suspended at their [await]. *)
Record Config := {
  state : State;
  frames : list frame
}.

(** What can happen to a listener and its token: a call of
    [waitForSnapshot]; the continuation of the suspended call number [i],
    once its promise has settled; the three observer callbacks; [clear()];
    [cancel()] on the token source; a caller registering a callback of its
    own with [onCancelled] and calling the function it got back. *)
Inductive action :=
| Call (opts : option WaitForSnapshotOptions.t)
| Resume (i : nat)
| Next (snapshot : Snapshot)
| ObserverError (e : FirestoreError)
| Complete
| Clear
| Cancel
| OnCancelled (tag : nat)
| Unregister (callbackId : nat).

Definition suspended (r : result) : list frame :=
  match r with
  | Awaiting f => [f]
  | _ => []
  end.

Definition with_state (st : State) (c : Config) : Config :=
  {| state := st; frames := frames c |}.

(** One action: the result of the segment of [waitForSnapshot] that ran, if
    one did, and the next configuration; [None] when the action cannot
    happen.  A caller only holds the unregistration functions that
    [onCancelled] returned to it, so [Unregister] names a symbol that exists
    and that no suspended call owns. *)
Definition exec (a : action) (c : Config) : option (option result * Config) :=
  match a with
  | Call opts =>
      let '(r, st) := waitForSnapshot opts (state c) in
      Some (Some r, {| state := st; frames := frames c ++ suspended r |})
  | Resume i =>
      f ← frames c !! i;
      '(r, st) ← resume f (state c);
      Some (Some r,
            {| state := st; frames := delete i (frames c) ++ suspended r |})
  | Next snapshot =>
      Some (None, with_state (observer_next snapshot (state c)) c)
  | ObserverError e => Some (None, with_state (observer_error e (state c)) c)
  | Complete => Some (None, with_state (observer_complete (state c)) c)
  | Clear => Some (None, with_state (clear (state c)) c)
  | Cancel =>
      let '(tok, w) :=
        CancellationTokenSource.cancel (cancellationToken (state c))
          (world (state c)) in
      Some (None,
            with_state
              {| listener := listener (state c);
                 cancellationToken := tok;
                 world := w |} c)
  | OnCancelled tag =>
      let '(_, tok, w) :=
        CancellationToken.onCancelled (External tag)
          (cancellationToken (state c)) (world (state c)) in
      Some (None,
            with_state
              {| listener := listener (state c);
                 cancellationToken := tok;
                 world := w |} c)
  | Unregister callbackId =>
      if decide (callbackId < symbols (world (state c))
                 ∧ Forall
                     (fun f => unregisterDeferred f ≠ DeleteCallback callbackId)
                     (frames c))
      then
        Some (None,
              with_state
                (set_token
                   (CancellationToken.run_unregister (DeleteCallback callbackId)
                      (cancellationToken (state c)))
                   (state c)) c)
      else None
  end.

(** A sequence of actions, with the results of the segments that ran. *)
Fixpoint run (tr : list action) (c : Config)
  : option (list (option result) * Config) :=
  match tr with
  | [] => Some ([], c)
  | a :: tr' =>
      '(r, c') ← exec a c;
      '(rs, c'') ← run tr' c';
      Some (r :: rs, c'')
  end.

(** A new listener on the token of a new source. *)
Definition init : Config :=
  {| state :=
       {| listener := SnapshotListener.new;
          cancellationToken := CancellationTokenSource.new;
          world := {| heap := []; calls := []; symbols := 0 |} |};
     frames := [] |}.

Definition reachable (c : Config) : Prop :=
  ∃ tr rs, run tr init = Some (rs, c).

Definition is_resume (a : action) : bool :=
  match a with
  | Resume _ => true
  | _ => false
  end.

(** The two messages of the internal assertions of [waitForSnapshot]. *)
Definition illegal_state (r : option result) : Prop :=
  r = Some (Thrown (Error "illegal state: this.onChange !== null"))
  ∨ r = Some (Thrown (Error "illegal state: this.onChange !== onChange")).

Definition usage_error : exn :=
  Error "only one call to waitForSnapshotFromServer() at a time".

(** ** Errors of the rest of the code

    An error object with the [name] of its class and its [message]. *)
Record thrown := { error_name : string; error_message : string }.

Definition plain_error (msg : string) : thrown :=
  {| error_name := "Error"; error_message := msg |}.

(** ** [util.ts]: Firestore hosts and placeholder values *)

Module Util.
(** [class UnknownFirestoreHostError]: [super(`unknown host: ${host}`)] *)
Definition UnknownFirestoreHostError (host : string) : thrown :=
  {| error_name := "UnknownFirestoreHostError";
     error_message := "unknown host: " +:+ host |}.

(** [hostNameFromHost(host)].  The type [FirestoreHost] has four members;
    the [throw] after the [switch] is for any other string. *)
Definition hostNameFromHost (host : string) : thrown + string :=
  if decide (host = "prod") then inr "firestore.googleapis.com"
  else if decide (host = "emulator") then inr "127.0.0.1"
  else if decide (host = "nightly")
       then inr "test-firestore.sandbox.googleapis.com"
  else if decide (host = "qa")
       then inr "staging-firestore.sandbox.googleapis.com"
  else inl (UnknownFirestoreHostError host).

(** [displayLabelFromHost(hostId)] *)
Definition displayLabelFromHost (hostId : string) : thrown + string :=
  if decide (hostId = "prod") then inr "Production"
  else if decide (hostId = "emulator") then inr "Emulator"
  else if decide (hostId = "nightly") then inr "Nightly"
  else if decide (hostId = "qa") then inr "QA"
  else inl (UnknownFirestoreHostError hostId).

(** [displayValueFromHost(hostId)]: the label is computed first. *)
Definition displayValueFromHost (hostId : string) : thrown + string :=
  match displayLabelFromHost hostId with
  | inl e => inl e
  | inr label =>
      match hostNameFromHost hostId with
      | inl e => inl e
      | inr hostName => inr (label +:+ " (" +:+ hostName +:+ ")")
      end
  end.

(** [String.prototype.startsWith] *)
Fixpoint startsWith (value searchString : string) {struct searchString}
  : bool :=
  match searchString, value with
  | EmptyString, _ => true
  | String c s', String d v' => if decide (c = d) then startsWith v' s' else false
  | String _ _, EmptyString => false
  end.

(** [isPlaceholderValue(value)] *)
Definition isPlaceholderValue (value : string) : bool :=
  startsWith value "REPLACE_WITH_YOUR_".
End Util.

(** ** [util.ts]: writes in batches *)

Module WriteBatches.
Section performWritesInBatches.
Context {T Batch Closure : Type}.

(** [writeBatch(db)]: a new batch. *)
Variable writeBatch : Batch.

(** The callback, which may change the batch it is given and the variables
    that it closes over. *)
Variable callback : Closure → Batch → T → Closure * Batch.

(** The local variables of [performWritesInBatches] and the variables of
    the callback's closure. *)
Record locals := {
  writeBatches : list Batch;
  writeBatch_ : option Batch;
  currentWriteBatchWriteCount : nat;
  closure : Closure
}.

(** The body of [for (const item of items)]. *)
Definition loop_body (s : locals) (item : T) : locals :=
  let '(batch, count) :=
    match writeBatch_ s with
    | None => (writeBatch, 0)
    | Some b => (b, currentWriteBatchWriteCount s)
    end in
  let '(env, batch') := callback (closure s) batch item in
  let count' := S count in
  if Nat.eqb count' 500 then
    {| writeBatches := writeBatches s ++ [batch'];
       writeBatch_ := None;
       currentWriteBatchWriteCount := count';
       closure := env |}
  else
    {| writeBatches := writeBatches s;
       writeBatch_ := Some batch';
       currentWriteBatchWriteCount := count';
       closure := env |}.

(** [performWritesInBatches(db, items, callback)]: the batches that are
    committed, in order, and the closure variables at the end. *)
Definition performWritesInBatches (items : list T) (env : Closure)
  : list Batch * Closure :=
  let s :=
    foldl loop_body
      {| writeBatches := [];
         writeBatch_ := None;
         currentWriteBatchWriteCount := 0;
         closure := env |}
      items in
  (writeBatches s ++ match writeBatch_ s with
                     | Some b => [b]
                     | None => []
                     end,
   closure s).
End performWritesInBatches.

(** The data that [createDocumentsFromDocumentCreateCount] writes to a
    document: the [documentData] it was given, or
    [{ sampleKey: 42, docNumber: nextDocumentNumber }]. *)
Inductive written (D : Type) :=
| Given (documentData : D)
| Sample (sampleKey docNumber : nat).
Arguments Given {D} documentData.
Arguments Sample {D} sampleKey docNumber.

(** The callback of [createDocumentsFromDocumentCreateCount].  A batch is
    the list of its [set] calls; the closure variable is
    [nextDocumentNumber]. *)
Definition numbering_callback {Ref D : Type} (documentData : option D)
    (nextDocumentNumber : nat) (writeBatch_ : list (Ref * written D))
    (documentRef : Ref) : nat * list (Ref * written D) :=
  let documentDataForCurrentDocument :=
    match documentData with
    | Some d => Given d
    | None => Sample 42 nextDocumentNumber
    end in
  (S nextDocumentNumber,
   writeBatch_ ++ [(documentRef, documentDataForCurrentDocument)]).

(** The writes of [createDocumentsFromDocumentCreateCount] for the sorted
    [documentRefs]: [nextDocumentNumber] starts at 1. *)
Definition numbered_writes {Ref D : Type} (documentRefs : list Ref)
    (documentData : option D) : list (list (Ref * written D)) :=
  (performWritesInBatches [] (numbering_callback documentData)
     documentRefs 1).1.
End WriteBatches.

(** ** [platform.ts]: the platform in use *)

Module Platform.
Section platform.
(** The types of binary data, hashes, clock readings, what logging outputs,
    and the instants at which a clock can be read. *)
Context {Data Hash Number Output Instant Options : Type}.

(** [interface LogMessage] *)
Record LogMessage := {
  text : string;
  timestamp : string;
  log_options : option Options
}.

(** [interface Platform] *)
Record Platform := {
  impl_base64Encode : string → string;
  impl_calculateHash : Data → Hash;
  impl_log : LogMessage → Output;
  impl_getCurrentMonotonicTimeMilliseconds : Instant → Number
}.

(** [setPlatform(platform)], on the module variable [gPlatform]. *)
Definition setPlatform (platform : Platform) (gPlatform : option Platform)
  : option thrown * option Platform :=
  match gPlatform with
  | Some _ =>
      (Some (plain_error "setPlatform() has already been invoked"), gPlatform)
  | None => (None, Some platform)
  end.

(** [getPlatform()] *)
Definition getPlatform (gPlatform : option Platform) : thrown + Platform :=
  match gPlatform with
  | None => inl (plain_error "setPlatform() has not yet been invoked")
  | Some platform => inr platform
  end.

Definition base64Encode (data : string) (gPlatform : option Platform)
  : thrown + string :=
  match getPlatform gPlatform with
  | inl e => inl e
  | inr platform => inr (impl_base64Encode platform data)
  end.

Definition calculateHash (data : Data) (gPlatform : option Platform)
  : thrown + Hash :=
  match getPlatform gPlatform with
  | inl e => inl e
  | inr platform => inr (impl_calculateHash platform data)
  end.

Definition log (message : LogMessage) (gPlatform : option Platform)
  : thrown + Output :=
  match getPlatform gPlatform with
  | inl e => inl e
  | inr platform => inr (impl_log platform message)
  end.

(** [getCurrentMonotonicTimeMilliseconds()], called at instant [now]. *)
Definition getCurrentMonotonicTimeMilliseconds (now : Instant)
    (gPlatform : option Platform) : thrown + Number :=
  match getPlatform gPlatform with
  | inl e => inl e
  | inr platform =>
      inr (impl_getCurrentMonotonicTimeMilliseconds platform now)
  end.

(** [setPlatform] called with each platform of a list; the errors thrown. *)
Fixpoint setPlatform_all (platforms : list Platform)
    (gPlatform : option Platform) : list (option thrown) * option Platform :=
  match platforms with
  | [] => ([], gPlatform)
  | p :: rest =>
      let '(e, g) := setPlatform p gPlatform in
      let '(es, g') := setPlatform_all rest g in
      (e :: es, g')
  end.

(** *** [logging.ts]: the elapsed time *)

(** JavaScript's [0] and [-] on numbers. *)
Variable zero : Number.
Variable minus : Number → Number → Number.

(** [resetStartTime()], on the module variable [logStartTime]. *)
Definition resetStartTime (logStartTime : option Number) : option Number :=
  None.

(** [getElapsedMilliseconds()], called at instant [now]. *)
Definition getElapsedMilliseconds (now : Instant)
    (gPlatform : option Platform) (logStartTime : option Number)
  : (thrown + Number) * option Number :=
  match getCurrentMonotonicTimeMilliseconds now gPlatform with
  | inl e => (inl e, logStartTime)
  | inr currentTimeMilliseconds =>
      match logStartTime with
      | None => (inr zero, Some currentTimeMilliseconds)
      | Some start => (inr (minus currentTimeMilliseconds start), logStartTime)
      end
  end.

(** [getElapsedMilliseconds()] called at each instant of a list. *)
Fixpoint getElapsedMilliseconds_all (instants : list Instant)
    (gPlatform : option Platform) (logStartTime : option Number)
  : list (thrown + Number) * option Number :=
  match instants with
  | [] => ([], logStartTime)
  | now :: rest =>
      let '(r, start) := getElapsedMilliseconds now gPlatform logStartTime in
      let '(rs, start') := getElapsedMilliseconds_all rest gPlatform start in
      (r :: rs, start')
  end.
End platform.
End Platform.

(** ** [node/platform.ts]: bytes *)

Module NodePlatform.
(** The argument of [toUint8Array]: an array of numbers, here integers, a
    [Uint8Array], or a string, given by its UTF-16 code units. *)
Inductive data :=
| NumberArray (elements : list Z)
| Uint8Array (bytes : list Z)
| StringData (codeUnits : list Z).

Section toUint8Array.
(** The conversion of a number to a string that a template literal applies:
    decimal digits for an integer below 10^21 in magnitude, exponent
    notation above. *)
Variable toString : Z → string.

(** The loop of [toUint8Array], from index [i] on: the elements stored, or
    the error thrown at the first element out of range. *)
Fixpoint fill (i : nat) (elements : list Z) : thrown + list Z :=
  match elements with
  | [] => inr []
  | element :: rest =>
      if decide (element < 0 ∨ element > 255)%Z then
        inl (plain_error
               ("data[" +:+ toString (Z.of_nat i) +:+ "] is out of range: "
                +:+ toString element))
      else
        match fill (S i) rest with
        | inl e => inl e
        | inr stored => inr (element :: stored)
        end
  end.

(** [toUint8Array(data)] *)
Definition toUint8Array (d : data) : thrown + list Z :=
  match d with
  | Uint8Array bytes => inr bytes
  | NumberArray elements => fill 0 elements
  | StringData codeUnits => fill 0 codeUnits
  end.
End toUint8Array.
End NodePlatform.

(** ** [firestore_helper.ts]: the caches of Firebase objects *)

Module FirestoreHelper.
Section keys.
(** JavaScript numbers, and the conversion of a number to a string that a
    template literal applies. *)
Context {Number : Type}.
Variable toString : Number → string.

(** [class FirebaseObjectCacheKey]; [None] is a [null] instance id. *)
Record FirebaseObjectCacheKey := {
  host : string;
  projectId : string;
  apiKey : string;
  instanceId : option Number
}.

(** [get hostName()] *)
Definition hostName (key : FirebaseObjectCacheKey) : thrown + string :=
  Util.hostNameFromHost (host key).

(** [get canonicalStringWithoutInstanceId()] *)
Definition canonicalStringWithoutInstanceId (key : FirebaseObjectCacheKey)
  : string :=
  host key +:+ "%" +:+ projectId key +:+ "%" +:+ apiKey key.

(** [get canonicalString()] *)
Definition canonicalString (key : FirebaseObjectCacheKey) : string :=
  canonicalStringWithoutInstanceId key
  +:+ match instanceId key with
      | None => ""
      | Some n => "%" +:+ toString n
      end.

Context {V : Type}.

(** [FirebaseObjectCache<T>.get(key)]; [None] is [null]. *)
Definition get (key : FirebaseObjectCacheKey)
    (cachedObjectsByKey : gmap string V) : option V :=
  cachedObjectsByKey !! canonicalString key.

(** [FirebaseObjectCache<T>.set(key, value)] *)
Definition set (key : FirebaseObjectCacheKey) (value : V)
    (cachedObjectsByKey : gmap string V) : option thrown * gmap string V :=
  let keyString := canonicalString key in
  match cachedObjectsByKey !! keyString with
  | Some _ =>
      (Some (plain_error ("Entry for " +:+ keyString +:+ " already exists")),
       cachedObjectsByKey)
  | None => (None, <[keyString := value]> cachedObjectsByKey)
  end.

(** [set] called for each entry of a list; the cache at the end. *)
Definition set_all (entries : list (FirebaseObjectCacheKey * V))
    (cachedObjectsByKey : gmap string V) : gmap string V :=
  foldl (fun m kv => (set kv.1 kv.2 m).2) cachedObjectsByKey entries.
End keys.
End FirestoreHelper.

(** ** [node/index.ts]: settings kept in memory *)

Module MemorySettingsStorage.
(** [class MemorySettingsStorage], which is its [map]. *)
Definition clear (key : string) (map : gmap string string)
  : gmap string string :=
  delete key map.

(** [load(key)]; [None] is [null]. *)
Definition load (key : string) (map : gmap string string) : option string :=
  map !! key.

Definition save (key value : string) (map : gmap string string)
  : gmap string string :=
  <[key := value]> map.
End MemorySettingsStorage.

(** ** Vocabulary of the statements *)

(** The caller-supplied callbacks of a callback map, in iteration order. *)
Fixpoint externals (m : JsMap.t callback) : list nat :=
  match m with
  | [] => []
  | (_, External tag) :: m' => tag :: externals m'
  | (_, RejectDeferred _ _) :: m' => externals m'
  end.

(** What one callback does to the heap. *)
Definition heap_effect (cb : callback) (h : list (Deferred.t unit))
  : list (Deferred.t unit) :=
  heap (invoke cb {| heap := h; calls := []; symbols := 0 |}).

(** The promise behind a reference, if the reference is allocated. *)
Definition promise_at (w : World) (d : nat) : option (Promise.state unit) :=
  Deferred.promise <$> heap w !! d.

Definition cancelled_error : exn :=
  CancellationTokenCancelledError "operation cancelled".

(** The registration on the token that a suspended call holds: its entry in
    the callback map or, when the token was already cancelled at the time
    of registration, nothing, the promise having been rejected at once. *)
Definition registration_ok (m : JsMap.t callback) (w : World) (f : frame)
  : Prop :=
  match unregisterDeferred f with
  | DeleteCallback k => (k, RejectDeferred (deferred f) None) ∈ m
  | Noop => promise_at w (deferred f) = Some (Promise.rejected cancelled_error)
  end.

(** The relation between the suspended calls [fs], the [onChange] slot
    [slot], the callback map [m] and the store [w] that every action
    maintains:
    - no call is suspended and the slot is empty, or one call is suspended,
      the slot holds its closure, its [Deferred] is allocated and its
      registration is in place;
    - the symbols in the map have been created;
    - a callback of the map that rejects a [Deferred] belongs to the
      suspended call;
    - a promise of the heap is only ever rejected by a cancellation. *)
Definition consistent_parts (fs : list frame) (slot : option nat)
    (m : JsMap.t callback) (w : World) : Prop :=
  match fs with
  | [] => slot = None
  | [f] =>
      slot = Some (deferred f)
      ∧ deferred f < length (heap w)
      ∧ registration_ok m w f
  | _ => False
  end
  ∧ Forall (fun k => k < symbols w) (JsMap.keys m)
  ∧ (∀ k d msg,
       (k, RejectDeferred d msg) ∈ m →
       msg = None
       ∧ ∃ f, fs = [f] ∧ deferred f = d ∧ unregisterDeferred f = DeleteCallback k)
  ∧ Forall
      (fun x => ∀ reason,
         Deferred.promise x = Promise.rejected reason → reason = cancelled_error)
      (heap w).

Definition consistent (c : Config) : Prop :=
  consistent_parts (frames c) (onChange (listener (state c)))
    (CancellationToken._onCancelledCallbacks (cancellationToken (state c)))
    (world (state c)).

(** A listener that has nothing to give: an empty buffer, no error, not
    completed. *)
Definition idle_listener (l : SnapshotListener.t) : Prop :=
  snapshots l = [] ∧ error l = None ∧ completed l = false.

(** A suspended call whose promise is still pending waits on an idle
    listener. *)
Definition pending_is_idle (c : Config) : Prop :=
  ∀ f, f ∈ frames c →
       promise_at (world (state c)) (deferred f) = Some Promise.pending →
       idle_listener (listener (state c)).

(** [onCancelled] called for each callback of a list, in order. *)
Fixpoint onCancelled_all (cbs : list callback) (tok : CancellationToken.t)
    (w : World) : list unregister * CancellationToken.t * World :=
  match cbs with
  | [] => ([], tok, w)
  | cb :: rest =>
      let '(u, tok1, w1) := CancellationToken.onCancelled cb tok w in
      let '(us, tok2, w2) := onCancelled_all rest tok1 w1 in
      (u :: us, tok2, w2)
  end.

(** The token's own fields, apart from the callback map. *)
Definition token_flags (tok : CancellationToken.t) : bool * Deferred.t unit :=
  (CancellationToken._cancelled tok, CancellationToken._onCancelledDeferred tok).

Definition is_cancel (a : action) : bool :=
  match a with
  | Cancel => true
  | _ => false
  end.

(** The members of the type [FirestoreHost] of [util.ts]. *)
Definition known_hosts : list string := ["prod"; "emulator"; "nightly"; "qa"].

(** The writes that a callback makes for a list of items, one per item, and
    the variables of its closure at the end; [step] gives the write for an
    item and the next value of the closure variables. *)
Fixpoint all_writes {T W Closure : Type} (step : Closure → T → Closure * W)
    (items : list T) (env : Closure) : list W * Closure :=
  match items with
  | [] => ([], env)
  | item :: rest =>
      let '(ws, env') := all_writes step rest (step env item).1 in
      ((step env item).2 :: ws, env')
  end.

(** The values that fit in a byte. *)
Definition in_byte_range (element : Z) : Prop := (0 ≤ element ≤ 255)%Z.


(** ** Sample data

    Three snapshots in the style of the listener's use in
    [run_the_test.ts], options that ask for [hasPendingWrites: false], and
    two distinct errors. *)

Definition snap_a : Snapshot :=
  {| metadata := {| hasPendingWrites := false; fromCache := false |};
     size := 1 |}.
Definition snap_b : Snapshot :=
  {| metadata := {| hasPendingWrites := true; fromCache := false |};
     size := 2 |}.

Definition no_pending_writes : option WaitForSnapshotOptions.t :=
  Some {| WaitForSnapshotOptions.hasPendingWrites := Some false;
          WaitForSnapshotOptions.fromCache := None |}.

Definition err_a : FirestoreError :=
  {| code := "unavailable"; message := "first" |}.
Definition err_b : FirestoreError :=
  {| code := "aborted"; message := "second" |}.

(** The configuration after a trace run from [init], if the trace can run. *)
Definition after (tr : list action) : option Config :=
  snd <$> run tr init.

(** The results of the segments of a trace run from [init]. *)
Definition results (tr : list action) : option (list (option result)) :=
  fst <$> run tr init.

(** The configuration in which one call without options is suspended, and
    the frame of that call. *)
Definition waiting : Config := default init (after [Call None]).

Definition waiting_frame : frame :=
  {| options := None; deferred := 0; unregisterDeferred := DeleteCallback 0 |}.

(** * Properties *)

(** ** [Deferred] *)

Section deferred_facts.
Context {T : Type}.
Implicit Types (d : Deferred.t T) (c : Deferred.call T).

Lemma perform_settled d c :
  Promise.settled (Deferred.promise d) = true → Deferred.perform d c = d.
Proof.
  destruct d as [[| v | e]], c; simpl; intros Hs; try discriminate; reflexivity.
Qed.

Lemma perform_pending c :
  Deferred.promise (Deferred.perform Deferred.new c) = Deferred.outcome_of c.
Proof. destruct c; reflexivity. Qed.

Lemma outcome_settled c : Promise.settled (Deferred.outcome_of c) = true.
Proof. destruct c; reflexivity. Qed.

Lemma foldl_perform_settled d (cs : list (Deferred.call T)) :
  Promise.settled (Deferred.promise d) = true →
  foldl Deferred.perform d cs = d.
Proof.
  revert d. induction cs as [| c cs IH]; intros d Hs; simpl.
  - reflexivity.
  - rewrite perform_settled by assumption. apply IH, Hs.
Qed.
End deferred_facts.

(** C8.  A [Deferred] settles at most once.  Whatever calls of [resolve] and
    [reject] are made on a new [Deferred], its promise has the outcome of
    the first call; a second [resolve] leaves the first value in place, and
    [reject] after [resolve] changes nothing. *)
Theorem deferred_settles_once {T : Type} :
  (∀ (c : Deferred.call T) (cs : list (Deferred.call T)),
     Deferred.promise (foldl Deferred.perform Deferred.new (c :: cs))
     = Deferred.outcome_of c)
  ∧ (∀ (v1 v2 : T) (d : Deferred.t T),
       Deferred.promise d = Promise.pending →
       Deferred.promise (Deferred.resolve v2 (Deferred.resolve v1 d))
       = Promise.fulfilled v1)
  ∧ (∀ (v : T) (e : exn) (d : Deferred.t T),
       Deferred.reject e (Deferred.resolve v d) = Deferred.resolve v d)
  ∧ (∀ (v1 v2 : T) (d : Deferred.t T),
       Deferred.resolve v2 (Deferred.resolve v1 d) = Deferred.resolve v1 d).
Proof.
  split; [| split; [| split]].
  - intros c cs. simpl. rewrite foldl_perform_settled.
    + apply perform_pending.
    + rewrite perform_pending. apply outcome_settled.
  - intros v1 v2 [p]; simpl; intros ->; reflexivity.
  - intros v e [[| v' | e']]; reflexivity.
  - intros v1 v2 [[| v' | e']]; reflexivity.
Qed.

Lemma deferred_settles_once_witness :
  Deferred.promise
    (Deferred.resolve 2 (Deferred.resolve 1 (Deferred.new (T := nat))))
  = Promise.fulfilled 1.
Proof.
  apply (proj1 (proj2 (@deferred_settles_once nat)) 1 2 Deferred.new).
  reflexivity.
Defined.

(** ** [clear()] *)

(** C9.  [clear()] empties the buffer and changes nothing else: the
    recorded error, the completed flag and the [onChange] slot are as
    before, and so are the token and the rest of the store. *)
Theorem clear_only_empties_buffer (st : State) :
  snapshots (listener (clear st)) = []
  ∧ error (listener (clear st)) = error (listener st)
  ∧ completed (listener (clear st)) = completed (listener st)
  ∧ onChange (listener (clear st)) = onChange (listener st)
  ∧ cancellationToken (clear st) = cancellationToken st
  ∧ world (clear st) = world st.
Proof. repeat split. Qed.

(** ** The buffer scan *)

Section buffer_scan.
Implicit Types (opts : option WaitForSnapshotOptions.t) (s : Snapshot).

Lemma shift_loop_cons opts s rest :
  shift_loop opts (s :: rest)
  = if matching opts s then (Some s, rest) else shift_loop opts rest.
Proof.
  unfold matching. simpl.
  destruct (differs _ (hasPendingWrites _)); simpl; [reflexivity |].
  destruct (differs _ (fromCache _)); reflexivity.
Qed.



Lemma shift_loop_no_match opts l :
  Forall (fun x => matching opts x = false) l →
  shift_loop opts l = (None, []).
Proof.
  induction 1 as [| x l Hx _ IH]; [reflexivity |].
  rewrite shift_loop_cons, Hx. exact IH.
Qed.


Lemma shift_loop_None opts l rest :
  shift_loop opts l = (None, rest) →
  rest = [] ∧ Forall (fun x => matching opts x = false) l.
Proof.
  induction l as [| x l IH].
  - intros [= <-]. split; [reflexivity | constructor].
  - rewrite shift_loop_cons. destruct (matching opts x) eqn:Hx; [discriminate |].
    intros H. destruct (IH H) as [-> Hl]. split; [reflexivity |].
    constructor; assumption.
Qed.
End buffer_scan.





(** What [notify] and the observer callbacks leave alone. *)
Lemma notify_listener st : listener (notify st) = listener st.
Proof. unfold notify. destruct (onChange (listener st)); reflexivity. Qed.

Lemma notify_token st : cancellationToken (notify st) = cancellationToken st.
Proof. unfold notify. destruct (onChange (listener st)); reflexivity. Qed.


Lemma set_snapshots_twice a b st :
  set_snapshots a (set_snapshots b st) = set_snapshots a st.
Proof. reflexivity. Qed.




(** ** The order of the checks in a pass of the retry loop *)

Lemma waitForSnapshot_loop_pass opts st :
  onChange (listener st) = None → waitForSnapshot opts st = loop_pass opts st.
Proof. intros H. unfold waitForSnapshot. rewrite H. reflexivity. Qed.

(** The state in which the pass after a wake-up starts. *)
Lemma finally_blocks_legal f st :
  onChange (listener st) = Some (deferred f) →
  finally_blocks f st
  = (None,
     set_token
       (CancellationToken.run_unregister (unregisterDeferred f)
          (cancellationToken st))
       (set_onChange None st)).
Proof. intros H. unfold finally_blocks. rewrite decide_True by done. reflexivity. Qed.

Lemma resume_fulfilled f st d v :
  onChange (listener st) = Some (deferred f) →
  heap (world st) !! deferred f = Some d →
  Deferred.promise d = Promise.fulfilled v →
  resume f st = Some (loop_pass (options f) (finally_blocks f st).2).
Proof.
  intros Hc Hd Hv. unfold resume. rewrite Hd. simpl. rewrite Hv.
  rewrite finally_blocks_legal by assumption. reflexivity.
Qed.

Lemma resume_rejected f st d reason :
  onChange (listener st) = Some (deferred f) →
  heap (world st) !! deferred f = Some d →
  Deferred.promise d = Promise.rejected reason →
  resume f st = Some (Thrown reason, (finally_blocks f st).2).
Proof.
  intros Hc Hd Hv. unfold resume. rewrite Hd. simpl. rewrite Hv.
  rewrite finally_blocks_legal by assumption. reflexivity.
Qed.

Lemma loop_pass_error_first opts st e :
  onChange (listener st) = None →
  error (listener st) = Some e →
  loop_pass opts st = (Thrown (Firestore e), st).
Proof. intros Hc He. unfold loop_pass. rewrite Hc, He. reflexivity. Qed.

Lemma loop_pass_completed_second opts st :
  onChange (listener st) = None →
  error (listener st) = None →
  completed (listener st) = true →
  loop_pass opts st = (Thrown (Error "listener is completed"), st).
Proof. intros Hc He Hd. unfold loop_pass. rewrite Hc, He, Hd. reflexivity. Qed.

Lemma loop_pass_scan_last opts st s rest :
  onChange (listener st) = None →
  error (listener st) = None →
  completed (listener st) = false →
  shift_loop opts (snapshots (listener st)) = (Some s, rest) →
  loop_pass opts st = (Returned s, set_snapshots rest st).
Proof.
  intros Hc He Hd Hs. unfold loop_pass. rewrite Hc, He, Hd, Hs. reflexivity.
Qed.

(** C1, as the code has it.  In every pass of the retry loop, the one run by
    the call and the one run on wake-up alike, the recorded error is checked
    first, the completed flag second, and the buffer is scanned only when
    neither is set.  So a call made when an error or completion is recorded
    fails with it and leaves the buffer alone, whether or not a matching
    snapshot is buffered. *)
Theorem terminal_checks_precede_buffer_scan (st : State)
    (opts : option WaitForSnapshotOptions.t) :
  (onChange (listener st) = None →
     (∀ e, error (listener st) = Some e →
           waitForSnapshot opts st = (Thrown (Firestore e), st))
     ∧ (error (listener st) = None → completed (listener st) = true →
        waitForSnapshot opts st = (Thrown (Error "listener is completed"), st))
     ∧ (error (listener st) = None → completed (listener st) = false →
        ∀ s rest, shift_loop opts (snapshots (listener st)) = (Some s, rest) →
                  waitForSnapshot opts st = (Returned s, set_snapshots rest st)))
  ∧ (∀ f d v,
       onChange (listener st) = Some (deferred f) →
       heap (world st) !! deferred f = Some d →
       Deferred.promise d = Promise.fulfilled v →
       let st' := (finally_blocks f st).2 in
       snapshots (listener st') = snapshots (listener st)
       ∧ (∀ e, error (listener st) = Some e →
               resume f st = Some (Thrown (Firestore e), st'))
       ∧ (error (listener st) = None → completed (listener st) = true →
          resume f st = Some (Thrown (Error "listener is completed"), st'))
       ∧ (error (listener st) = None → completed (listener st) = false →
          ∀ s rest,
            shift_loop (options f) (snapshots (listener st)) = (Some s, rest) →
            resume f st = Some (Returned s, set_snapshots rest st'))).
Proof.
  split.
  - intros Hc. rewrite waitForSnapshot_loop_pass by assumption.
    split; [| split].
    + intros e He. apply loop_pass_error_first; assumption.
    + intros He Hd. apply loop_pass_completed_second; assumption.
    + intros He Hd s rest Hs. apply loop_pass_scan_last; assumption.
  - intros f d v Hc Hd Hv st'.
    rewrite (resume_fulfilled f st d v) by assumption. fold st'.
    assert (Hl : listener st'
                 = {| snapshots := snapshots (listener st);
                      error := error (listener st);
                      completed := completed (listener st);
                      onChange := None |}).
    { unfold st'. rewrite finally_blocks_legal by assumption. reflexivity. }
    split; [rewrite Hl; reflexivity |].
    split; [| split].
    + intros e He. f_equal.
      apply loop_pass_error_first; rewrite Hl; simpl; done.
    + intros He Hcomp. f_equal.
      apply loop_pass_completed_second; rewrite Hl; simpl; done.
    + intros He Hcomp s rest Hs. f_equal.
      apply loop_pass_scan_last; rewrite Hl; simpl; done.
Qed.

(** C1 as stated fails: a matching snapshot is buffered and an error is
    recorded, and the call fails with the error; the same on wake-up, for a
    snapshot and an error delivered while the call was suspended. *)
Lemma buffered_match_loses_to_error :
  matching None snap_a = true
  ∧ results [Next snap_a; ObserverError err_a; Call None]
    = Some [None; None; Some (Thrown (Firestore err_a))]
  ∧ results [Call None; Next snap_a; ObserverError err_a; Resume 0]
    = Some [Some (Awaiting {| options := None; deferred := 0;
                              unregisterDeferred := DeleteCallback 0 |});
            None; None; Some (Thrown (Firestore err_a))]
  ∧ results [Next snap_a; Complete; Call None]
    = Some [None; None; Some (Thrown (Error "listener is completed"))]
  ∧ results [Next snap_a; ObserverError err_a; Call None]
    ≠ Some [None; None; Some (Returned snap_a)].
Proof. repeat split; discriminate. Qed.

Lemma terminal_checks_precede_buffer_scan_witness :
  waitForSnapshot None (observer_error err_a (observer_next snap_a (state init)))
  = (Thrown (Firestore err_a),
     observer_error err_a (observer_next snap_a (state init)))
  ∧ resume waiting_frame
      (observer_error err_a (observer_next snap_a (state waiting)))
    = Some (Thrown (Firestore err_a),
            (finally_blocks waiting_frame
               (observer_error err_a (observer_next snap_a (state waiting)))).2).
Proof.
  split.
  - apply (proj1 (terminal_checks_precede_buffer_scan
                    (observer_error err_a (observer_next snap_a (state init)))
                    None)); reflexivity.
  - apply (proj2 (terminal_checks_precede_buffer_scan
                    (observer_error err_a (observer_next snap_a (state waiting)))
                    None) waiting_frame
             {| Deferred._promise := Promise.fulfilled () |} ());
      reflexivity.
Defined.

(** ** Arrival order *)





(** ** The recorded error *)

Lemma loop_pass_keeps_flags opts st :
  error (listener (loop_pass opts st).2) = error (listener st)
  ∧ completed (listener (loop_pass opts st).2) = completed (listener st).
Proof.
  unfold loop_pass, alloc, CancellationToken.registerDeferred,
    CancellationToken.onCancelled.
  destruct (onChange (listener st)); [done |].
  destruct (error (listener st)) eqn:He; [done |].
  destruct (completed (listener st)) eqn:Hd; [done |].
  destruct (shift_loop opts (snapshots (listener st))) as [[s |] rest];
    [simpl; done |].
  simpl. destruct (CancellationToken._cancelled (cancellationToken st));
    simpl; done.
Qed.

Lemma waitForSnapshot_keeps_flags opts st :
  error (listener (waitForSnapshot opts st).2) = error (listener st)
  ∧ completed (listener (waitForSnapshot opts st).2) = completed (listener st).
Proof.
  unfold waitForSnapshot. destruct (onChange (listener st)); [done |].
  apply loop_pass_keeps_flags.
Qed.

Lemma finally_blocks_keeps_flags f st :
  error (listener (finally_blocks f st).2) = error (listener st)
  ∧ completed (listener (finally_blocks f st).2) = completed (listener st).
Proof. unfold finally_blocks. case_decide; done. Qed.

Lemma resume_keeps_flags f st r st' :
  resume f st = Some (r, st') →
  error (listener st') = error (listener st)
  ∧ completed (listener st') = completed (listener st).
Proof.
  unfold resume. destruct (heap (world st) !! deferred f) as [d |]; [| done].
  simpl. pose proof (finally_blocks_keeps_flags f st) as Hf.
  destruct (Deferred.promise d) as [| v | reason]; [done | |].
  - destruct (finally_blocks f st) as [[e |] st1]; simpl in Hf.
    + intros [= <- <-]. exact Hf.
    + pose proof (loop_pass_keeps_flags (options f) st1) as Hl.
      destruct (loop_pass (options f) st1) as [r1 st2]. intros [= <- <-].
      simpl in Hl. destruct Hf as [<- <-]. exact Hl.
  - destruct (finally_blocks f st) as [e st1]; simpl in Hf.
    intros [= <- <-]. exact Hf.
Qed.

Lemma exec_error a c r c' :
  exec a c = Some (r, c') →
  error (listener (state c'))
  = match a with
    | ObserverError e => Some e
    | _ => error (listener (state c))
    end.
Proof.
  destruct a; simpl.
  - pose proof (waitForSnapshot_keeps_flags opts (state c)) as [H _].
    destruct (waitForSnapshot opts (state c)) as [r1 st1].
    intros [= <- <-]. exact H.
  - destruct (frames c !! i) as [f |]; [| done]. simpl.
    destruct (resume f (state c)) as [[r1 st1] |] eqn:Hr; [| done].
    simpl. intros [= <- <-]. simpl. apply (resume_keeps_flags _ _ _ _ Hr).
  - intros [= <- <-]. simpl. unfold observer_next.
    rewrite notify_listener. reflexivity.
  - intros [= <- <-]. simpl. unfold observer_error.
    rewrite notify_listener. reflexivity.
  - intros [= <- <-]. simpl. unfold observer_complete.
    rewrite notify_listener. reflexivity.
  - intros [= <- <-]. reflexivity.
  - intros [= <- <-]. reflexivity.
  - destruct (CancellationToken.onCancelled _ _ _) as [[u tok] w].
    intros [= <- <-]. reflexivity.
  - case_decide; [| done]. intros [= <- <-]. reflexivity.
Qed.

(** C4, as the code has it.  After [observer.error(E)], a call of
    [waitForSnapshot] fails with [E] at once, without scanning the buffer.
    [observer.error] is the only operation that writes the error slot, so a
    recorded error is never cleared; but it writes it unconditionally, so a
    second [observer.error(E')] replaces [E] and later failures carry
    [E']. *)
Theorem observer_error_recorded (st : State) (e : FirestoreError)
    (opts : option WaitForSnapshotOptions.t) :
  onChange (listener st) = None →
  waitForSnapshot opts (observer_error e st)
  = (Thrown (Firestore e), observer_error e st)
  ∧ (∀ e', waitForSnapshot opts (observer_error e' (observer_error e st))
           = (Thrown (Firestore e'), observer_error e' (observer_error e st)))
  ∧ (∀ a c r c',
       exec a c = Some (r, c') →
       error (listener (state c'))
       = match a with
         | ObserverError e' => Some e'
         | _ => error (listener (state c))
         end).
Proof.
  intros Hc.
  assert (Hfail : ∀ e1 st1, onChange (listener st1) = None →
            waitForSnapshot opts (observer_error e1 st1)
            = (Thrown (Firestore e1), observer_error e1 st1)).
  { intros e1 st1 H1.
    assert (Hl : listener (observer_error e1 st1)
                 = {| snapshots := snapshots (listener st1);
                      error := Some e1;
                      completed := completed (listener st1);
                      onChange := None |}).
    { unfold observer_error. rewrite notify_listener. simpl. rewrite H1.
      reflexivity. }
    rewrite waitForSnapshot_loop_pass by (rewrite Hl; reflexivity).
    apply loop_pass_error_first; rewrite Hl; reflexivity. }
  split; [apply Hfail, Hc |]. split.
  - intros e'. apply Hfail. unfold observer_error. rewrite notify_listener.
    exact Hc.
  - apply exec_error.
Qed.

Lemma observer_error_recorded_witness :
  waitForSnapshot None (observer_error err_a (state init))
  = (Thrown (Firestore err_a), observer_error err_a (state init)).
Proof.
  apply (proj1 (observer_error_recorded (state init) err_a None eq_refl)).
Defined.

(** C4 as stated fails: a second [observer.error] overwrites the first
    error, and the next call fails with the second one. *)
Lemma second_error_overwrites_first :
  err_a ≠ err_b
  ∧ results [ObserverError err_a; ObserverError err_b; Call None]
    = Some [None; None; Some (Thrown (Firestore err_b))]
  ∧ results [ObserverError err_a; ObserverError err_b; Call None]
    ≠ Some [None; None; Some (Thrown (Firestore err_a))].
Proof. repeat split; discriminate. Qed.

(** ** The callback map *)

Section js_map.
Context {V : Type}.
Implicit Types (m : JsMap.t V) (k : nat) (v : V).

Lemma set_fresh k v m :
  Forall (fun k' => k' < k) (JsMap.keys m) → JsMap.set k v m = m ++ [(k, v)].
Proof.
  unfold JsMap.keys. induction m as [| [k' v'] m IH]; simpl; intros H.
  - reflexivity.
  - apply Forall_cons in H as [Hk H].
    rewrite decide_False by lia. rewrite IH by assumption. reflexivity.
Qed.

Lemma delete_fresh k m :
  Forall (fun k' => k' < k) (JsMap.keys m) → JsMap.delete k m = m.
Proof.
  unfold JsMap.keys. induction m as [| [k' v'] m IH]; simpl; intros H.
  - reflexivity.
  - apply Forall_cons in H as [Hk H].
    rewrite decide_False by lia. rewrite IH by assumption. reflexivity.
Qed.

Lemma delete_app k m1 m2 :
  JsMap.delete k (m1 ++ m2) = JsMap.delete k m1 ++ JsMap.delete k m2.
Proof.
  induction m1 as [| [k' v'] m1 IH]; simpl; [reflexivity |].
  case_decide; rewrite IH; reflexivity.
Qed.

Lemma elem_of_delete k k' v m :
  (k', v) ∈ JsMap.delete k m ↔ (k', v) ∈ m ∧ k' ≠ k.
Proof.
  induction m as [| [k0 v0] m IH]; simpl.
  - split; [intros H | intros [H _]]; inversion H.
  - case_decide as Hk; rewrite ?elem_of_cons, IH.
    + subst k0. split; [tauto |]. intros [[[= -> ->] | H] Hne]; [done | tauto].
    + split; [| tauto]. intros [[= -> ->] | [H Hne]]; tauto.
Qed.

Lemma keys_delete k m :
  Forall (fun k' => k' ≠ k) (JsMap.keys (JsMap.delete k m)).
Proof.
  unfold JsMap.keys. induction m as [| [k' v'] m IH]; simpl; [constructor |].
  case_decide; [assumption |]. constructor; assumption.
Qed.

Lemma forEach_app {S} (f : V → S → S) m1 m2 (s : S) :
  JsMap.forEach f (m1 ++ m2) s = JsMap.forEach f m2 (JsMap.forEach f m1 s).
Proof. unfold JsMap.forEach. apply foldl_app. Qed.
End js_map.

(** ** What a cancellation does to the store *)

Lemma invoke_heap cb w : heap (invoke cb w) = heap_effect cb (heap w).
Proof. destruct cb; reflexivity. Qed.

Lemma invoke_symbols cb w : symbols (invoke cb w) = symbols w.
Proof. destruct cb; reflexivity. Qed.

Lemma heap_effect_length cb h : length (heap_effect cb h) = length h.
Proof. destruct cb; unfold heap_effect; simpl; [apply length_alter | reflexivity]. Qed.

Lemma forEach_invoke_symbols m w :
  symbols (JsMap.forEach invoke m w) = symbols w.
Proof.
  unfold JsMap.forEach. revert w. induction m as [| kv m IH]; intros w; simpl.
  - reflexivity.
  - rewrite IH. apply invoke_symbols.
Qed.

Lemma forEach_invoke_calls m w :
  calls (JsMap.forEach invoke m w) = calls w ++ externals m.
Proof.
  unfold JsMap.forEach. revert w.
  induction m as [| [k [d msg | tag]] m IH]; intros w; simpl.
  - rewrite app_nil_r. reflexivity.
  - rewrite IH. reflexivity.
  - rewrite IH. simpl. rewrite <- app_assoc. reflexivity.
Qed.

Lemma forEach_invoke_heap m w :
  heap (JsMap.forEach invoke m w)
  = foldl (fun h kv => heap_effect kv.2 h) (heap w) m.
Proof.
  unfold JsMap.forEach. revert w. induction m as [| kv m IH]; intros w; simpl.
  - reflexivity.
  - rewrite IH, invoke_heap. reflexivity.
Qed.

Lemma forEach_invoke_heap_length m w :
  length (heap (JsMap.forEach invoke m w)) = length (heap w).
Proof.
  rewrite forEach_invoke_heap. generalize (heap w).
  induction m as [| kv m IH]; intros h; simpl; [reflexivity |].
  rewrite IH. apply heap_effect_length.
Qed.

(** A promise that has settled is not changed by any callback. *)
Lemma heap_effect_settled cb h d x :
  h !! d = Some x →
  Promise.settled (Deferred.promise x) = true →
  heap_effect cb h !! d = Some x.
Proof.
  intros Hd Hs. destruct cb as [d' msg | tag]; unfold heap_effect; simpl;
    [| assumption].
  destruct (decide (d' = d)) as [-> |].
  - rewrite list_lookup_alter_eq, Hd. simpl. f_equal.
    destruct x as [[| v | e]]; simpl in *; done.
  - rewrite list_lookup_alter_ne by assumption. assumption.
Qed.

Lemma foldl_heap_effect_settled (m : JsMap.t callback) : ∀ h d x,
  h !! d = Some x →
  Promise.settled (Deferred.promise x) = true →
  foldl (fun h kv => heap_effect kv.2 h) h m !! d = Some x.
Proof.
  induction m as [| kv m IH]; intros h d x Hd Hs; simpl; [assumption |].
  apply IH; [| assumption]. apply heap_effect_settled; assumption.
Qed.

Lemma foldl_heap_effect_length (m : JsMap.t callback) : ∀ h,
  length (foldl (fun h kv => heap_effect kv.2 h) h m) = length h.
Proof.
  induction m as [| kv m IH]; intros h; simpl; [reflexivity |].
  rewrite IH. apply heap_effect_length.
Qed.

(** After the callbacks have run, the promises they reject are settled. *)
Lemma foldl_heap_effect_settles (m : JsMap.t callback) : ∀ h k d msg x,
  (k, RejectDeferred d msg) ∈ m →
  foldl (fun h kv => heap_effect kv.2 h) h m !! d = Some x →
  Promise.settled (Deferred.promise x) = true.
Proof.
  induction m as [| kv m IH]; intros h k d msg x Hin Hx; [inversion Hin |].
  simpl in Hx. apply elem_of_cons in Hin as [<- | Hin]; [| eauto].
  assert (Hlt : d < length h).
  { apply lookup_lt_Some in Hx.
    rewrite foldl_heap_effect_length, heap_effect_length in Hx. exact Hx. }
  apply lookup_lt_is_Some in Hlt as [y Hy].
  set (y' := Deferred.reject
               (CancellationTokenCancelledError
                  (default "operation cancelled" msg)) y).
  assert (Hy' : heap_effect (RejectDeferred d msg) h !! d = Some y').
  { unfold heap_effect. simpl. rewrite list_lookup_alter_eq, Hy. reflexivity. }
  assert (Hs : Promise.settled (Deferred.promise y') = true).
  { destruct y as [[| v | e]]; reflexivity. }
  simpl in Hx.
  rewrite (foldl_heap_effect_settled m _ d y' Hy' Hs) in Hx.
  injection Hx as <-. exact Hs.
Qed.

(** Callbacks that only meet settled promises leave the heap as it is. *)
Lemma foldl_heap_effect_fixed (m : JsMap.t callback) : ∀ h,
  (∀ k d msg x, (k, RejectDeferred d msg) ∈ m → h !! d = Some x →
                Promise.settled (Deferred.promise x) = true) →
  foldl (fun h kv => heap_effect kv.2 h) h m = h.
Proof.
  induction m as [| [k cb] m IH]; intros h Hall; simpl; [reflexivity |].
  assert (Hcb : heap_effect cb h = h).
  { destruct cb as [d msg | tag]; unfold heap_effect; simpl; [| reflexivity].
    apply list_eq. intros j. destruct (decide (d = j)) as [<- |].
    - rewrite list_lookup_alter_eq. destruct (h !! d) as [x |] eqn:Hx; [| done].
      simpl. f_equal.
      specialize (Hall k d msg x (list_elem_of_here _ _) Hx).
      destruct x as [[| v | e]]; simpl in *; done.
    - apply list_lookup_alter_ne. assumption. }
  rewrite Hcb. apply IH. intros k' d msg x Hin. apply (Hall k' d msg).
  right. assumption.
Qed.

Lemma forEach_invoke_twice m w :
  heap (JsMap.forEach invoke m (JsMap.forEach invoke m w))
  = heap (JsMap.forEach invoke m w).
Proof.
  rewrite (forEach_invoke_heap m (JsMap.forEach invoke m w)).
  apply foldl_heap_effect_fixed. intros k d msg x Hin.
  rewrite forEach_invoke_heap. apply (foldl_heap_effect_settles _ _ _ _ _ _ Hin).
Qed.

(** ** [cancel()] *)

Lemma cancel_token_again tok w w' :
  (CancellationTokenSource.cancel (CancellationTokenSource.cancel tok w).1 w').1
  = (CancellationTokenSource.cancel tok w).1.
Proof.
  destruct tok as [c m [[| [] | e]]]; reflexivity.
Qed.

Lemma cancel_times_succ n tok w :
  CancellationTokenSource.cancel_times (S n) tok w
  = CancellationTokenSource.cancel_times n
      (CancellationTokenSource.cancel tok w).1
      (CancellationTokenSource.cancel tok w).2.
Proof. reflexivity. Qed.

(** C2, as the code has it.  [cancel()] has no guard.  On the token itself
    a repeated call changes nothing: after one call or several, the flag is
    set, the cancellation promise is fulfilled and the callback map is the
    one from before; the promises that registered callbacks reject keep the
    outcome of the first call.  But every call invokes every callback that
    is still registered, so [S n] calls invoke a callback that was
    registered before the first call and not unregistered [S n] times. *)
Theorem cancel_repeats_callbacks (n : nat) (tok : CancellationToken.t)
    (w : World) :
  let first := CancellationTokenSource.cancel tok w in
  let last := CancellationTokenSource.cancel_times (S n) tok w in
  CancellationToken.cancelled first.1 = true
  ∧ CancellationToken.promise first.1
    = Promise.resolveFunction () (CancellationToken.promise tok)
  ∧ CancellationToken._onCancelledCallbacks first.1
    = CancellationToken._onCancelledCallbacks tok
  ∧ calls first.2
    = calls w ++ externals (CancellationToken._onCancelledCallbacks tok)
  ∧ last.1 = first.1
  ∧ heap last.2 = heap first.2
  ∧ symbols last.2 = symbols w
  ∧ calls last.2
    = calls w
      ++ concat (replicate (S n)
                   (externals (CancellationToken._onCancelledCallbacks tok))).
Proof.
  revert tok w. induction n as [| n IH]; intros tok w first last.
  - subst first last. simpl.
    rewrite forEach_invoke_symbols, forEach_invoke_calls, app_nil_r.
    repeat split.
  - destruct (IH first.1 first.2) as (_ & _ & _ & _ & Htok & Hheap & Hsym & Hcalls).
    assert (Hm : CancellationToken._onCancelledCallbacks first.1
                 = CancellationToken._onCancelledCallbacks tok) by reflexivity.
    assert (Hfirst : calls first.2
                     = calls w
                       ++ externals (CancellationToken._onCancelledCallbacks tok)).
    { apply forEach_invoke_calls. }
    split; [reflexivity |]. split; [reflexivity |]. split; [reflexivity |].
    split; [exact Hfirst |].
    subst last. rewrite cancel_times_succ. fold first.
    split; [rewrite Htok; apply cancel_token_again |].
    split; [rewrite Hheap; apply forEach_invoke_twice |].
    split; [rewrite Hsym; apply forEach_invoke_symbols |].
    rewrite Hcalls, Hm, Hfirst, <- app_assoc. reflexivity.
Qed.

(** C2 as stated fails: a callback registered before cancellation is
    invoked once by the first [cancel()] and again by the second, which is
    therefore not a no-op. *)
Lemma second_cancel_fires_again :
  results [OnCancelled 7; Cancel; Cancel] = Some [None; None; None]
  ∧ (calls ∘ world ∘ state <$> after [OnCancelled 7; Cancel]) = Some [7]
  ∧ (calls ∘ world ∘ state <$> after [OnCancelled 7; Cancel; Cancel])
    = Some [7; 7]
  ∧ after [OnCancelled 7; Cancel; Cancel] ≠ after [OnCancelled 7; Cancel].
Proof. repeat split; discriminate. Qed.

(** ** [onCancelled(callback)] *)

Lemma cancel_world tok w :
  (CancellationTokenSource.cancel tok w).2
  = JsMap.forEach invoke (CancellationToken._onCancelledCallbacks tok) w.
Proof. reflexivity. Qed.

(** C7, as the code has it.  On a cancelled token [onCancelled] calls the
    callback before it returns, registers nothing and returns a function
    that does nothing.  On a token that is not cancelled it calls nothing
    and appends the callback to the map under a new symbol, so that
    [cancel()] invokes it after the callbacks registered earlier; it returns
    the function that deletes that symbol.  Calling that function after the
    callback has fired cannot fail and calls nothing, but it is not a
    no-op: it removes the entry, which gives the token the state it would
    have without the registration, so that a later [cancel()] does not
    invoke the callback again. *)
Theorem onCancelled_fires_or_registers (cb : callback)
    (tok : CancellationToken.t) (w : World) :
  Forall (fun k => k < symbols w)
    (JsMap.keys (CancellationToken._onCancelledCallbacks tok)) →
  let '(u, tok', w') := CancellationToken.onCancelled cb tok w in
  if CancellationToken.cancelled tok then
    u = Noop ∧ tok' = tok ∧ w' = invoke cb w
    ∧ ∀ t, CancellationToken.run_unregister u t = t
  else
    u = DeleteCallback (symbols w)
    ∧ heap w' = heap w ∧ calls w' = calls w ∧ symbols w' = S (symbols w)
    ∧ tok' = CancellationToken.set_callbacks
               (CancellationToken._onCancelledCallbacks tok ++ [(symbols w, cb)])
               tok
    ∧ (CancellationTokenSource.cancel tok' w').2
      = invoke cb (CancellationTokenSource.cancel tok w').2
    ∧ CancellationToken.run_unregister u
        (CancellationTokenSource.cancel tok' w').1
      = (CancellationTokenSource.cancel tok w').1
    ∧ ∀ t, CancellationToken.cancelled (CancellationToken.run_unregister u t)
           = CancellationToken.cancelled t
           ∧ CancellationToken.promise (CancellationToken.run_unregister u t)
             = CancellationToken.promise t
           ∧ Forall (fun k => k ≠ symbols w)
               (JsMap.keys
                  (CancellationToken._onCancelledCallbacks
                     (CancellationToken.run_unregister u t))).
Proof.
  intros Hfresh. unfold CancellationToken.onCancelled, CancellationToken.cancelled.
  destruct (CancellationToken._cancelled tok) eqn:Hc.
  - repeat split.
  - rewrite set_fresh by assumption.
    split; [reflexivity |]. split; [reflexivity |]. split; [reflexivity |].
    split; [reflexivity |]. split; [reflexivity |].
    split; [| split].
    + rewrite !cancel_world. simpl. rewrite forEach_app. reflexivity.
    + unfold CancellationToken.run_unregister, CancellationToken.set_callbacks.
      simpl. rewrite delete_app, delete_fresh by assumption. simpl.
      rewrite decide_True by reflexivity. rewrite app_nil_r. reflexivity.
    + intros t. split; [reflexivity |]. split; [reflexivity |].
      apply keys_delete.
Qed.

Lemma onCancelled_fires_or_registers_witness :
  (CancellationToken.onCancelled (External 7) CancellationTokenSource.new
     (world (state init))).1.1
  = DeleteCallback 0.
Proof.
  pose proof (onCancelled_fires_or_registers (External 7)
                CancellationTokenSource.new (world (state init))) as H.
  simpl in H. apply H. constructor.
Defined.

(** C7 as stated fails: a callback is registered and fired by [cancel()];
    calling its unregistration function then changes the token, and the
    change shows at the next [cancel()], which no longer invokes it. *)
Lemma unregister_after_fire_has_effect :
  (calls ∘ world ∘ state <$> after [OnCancelled 7; Cancel]) = Some [7]
  ∧ after [OnCancelled 7; Cancel; Unregister 0] ≠ after [OnCancelled 7; Cancel]
  ∧ (calls ∘ world ∘ state <$> after [OnCancelled 7; Cancel; Unregister 0; Cancel])
    = Some [7]
  ∧ (calls ∘ world ∘ state <$> after [OnCancelled 7; Cancel; Cancel])
    = Some [7; 7].
Proof. repeat split; discriminate. Qed.

(** ** Consistency of the reachable configurations *)

Lemma promise_at_settled_alter (g : Deferred.t unit → Deferred.t unit) w d d' p :
  (∀ x, Promise.settled (Deferred.promise x) = true → g x = x) →
  promise_at w d = Some p →
  Promise.settled p = true →
  promise_at (set_heap (alter g d' (heap w)) w) d = Some p.
Proof.
  unfold promise_at. simpl. intros Hg Hp Hs.
  destruct (heap w !! d) as [x |] eqn:Hx; [| done].
  simpl in Hp. injection Hp as <-.
  destruct (decide (d' = d)) as [-> |].
  - rewrite list_lookup_alter_eq, Hx. simpl. rewrite Hg by assumption.
    reflexivity.
  - rewrite list_lookup_alter_ne, Hx by assumption. reflexivity.
Qed.

Lemma resolve_settled (x : Deferred.t unit) :
  Promise.settled (Deferred.promise x) = true → Deferred.resolve () x = x.
Proof. destruct x as [[| v | e]]; simpl; done. Qed.

Lemma reject_settled reason (x : Deferred.t unit) :
  Promise.settled (Deferred.promise x) = true → Deferred.reject reason x = x.
Proof. destruct x as [[| v | e]]; simpl; done. Qed.

Lemma Forall_alter_heap (P : Deferred.t unit → Prop) g d h :
  (∀ x, P x → P (g x)) → Forall P h → Forall P (alter g d h).
Proof.
  intros Hg Hh. apply Forall_lookup. intros j y Hy.
  destruct (decide (d = j)) as [-> |].
  - rewrite list_lookup_alter_eq in Hy.
    destruct (h !! j) as [x |] eqn:Hx; [| done].
    injection Hy as <-. apply Hg. exact (Forall_lookup_1 _ _ _ _ Hh Hx).
  - rewrite list_lookup_alter_ne in Hy by assumption.
    exact (Forall_lookup_1 _ _ _ _ Hh Hy).
Qed.

Section consistent_parts.
Implicit Types (fs : list frame) (slot : option nat)
  (m : JsMap.t callback) (w : World).

(** [this.onChange?.()] *)
Lemma consistent_resolve fs slot m w d :
  consistent_parts fs slot m w →
  consistent_parts fs slot m
    (set_heap (alter (Deferred.resolve ()) d (heap w)) w).
Proof.
  intros (Hfs & Hkeys & Hown & Hheap).
  split; [| split; [| split]]; simpl; try assumption.
  - destruct fs as [| f [| f' fs]]; try assumption.
    destruct Hfs as (Hslot & Hlt & Hreg).
    split; [assumption |]. split; [rewrite length_alter; assumption |].
    unfold registration_ok in *.
    destruct (unregisterDeferred f); [| assumption].
    apply promise_at_settled_alter; [apply resolve_settled | assumption | done].
  - apply Forall_alter_heap; [| assumption].
    intros [[| v | e]] Hx reason; simpl; [done | done | apply Hx].
Qed.

(** One callback of the map is invoked. *)
Lemma consistent_invoke fs slot m w k cb :
  (k, cb) ∈ m →
  consistent_parts fs slot m w →
  consistent_parts fs slot m (invoke cb w).
Proof.
  intros Hin (Hfs & Hkeys & Hown & Hheap).
  destruct cb as [d msg | tag].
  - destruct (Hown k d msg Hin) as [-> _].
    split; [| split; [| split]]; simpl; try assumption.
    + destruct fs as [| f [| f' fs]]; try assumption.
      destruct Hfs as (Hslot & Hlt & Hreg).
      split; [assumption |]. split; [rewrite length_alter; assumption |].
      unfold registration_ok in *.
      destruct (unregisterDeferred f); [| assumption].
      apply promise_at_settled_alter;
        [apply reject_settled | assumption | done].
    + apply Forall_alter_heap; [| assumption].
      intros [[| v | e]] Hx reason; simpl; [| done | apply Hx].
      intros [= <-]. reflexivity.
  - split; [| split; [| split]]; simpl; assumption.
Qed.

(** [forEach] over a part of the map. *)
Lemma consistent_forEach fs slot m w (m' : JsMap.t callback) :
  m' ⊆ m →
  consistent_parts fs slot m w →
  consistent_parts fs slot m (JsMap.forEach invoke m' w).
Proof.
  unfold JsMap.forEach. revert w.
  induction m' as [| [k cb] m' IH]; intros w Hsub Hc; simpl; [assumption |].
  apply IH.
  - intros x Hx. apply Hsub. right. assumption.
  - apply (consistent_invoke _ _ _ _ k); [| assumption].
    apply Hsub. left.
Qed.

(** A caller registers a callback of its own. *)
Lemma consistent_register_external fs slot m w tag :
  consistent_parts fs slot m w →
  consistent_parts fs slot (JsMap.set (symbols w) (External tag) m)
    {| heap := heap w; calls := calls w; symbols := S (symbols w) |}.
Proof.
  intros (Hfs & Hkeys & Hown & Hheap). rewrite set_fresh by assumption.
  split; [| split; [| split]]; simpl; try assumption.
  - destruct fs as [| f [| f' fs]]; try assumption.
    destruct Hfs as (Hslot & Hlt & Hreg).
    split; [assumption |]. split; [assumption |].
    unfold registration_ok in *.
    destruct (unregisterDeferred f); [assumption |].
    apply elem_of_app. left. assumption.
  - unfold JsMap.keys. rewrite fmap_app. apply Forall_app. split.
    + eapply Forall_impl; [exact Hkeys |]. simpl. intros; lia.
    + repeat constructor.
  - intros k d msg Hin. apply elem_of_app in Hin as [Hin | Hin]; [eauto |].
    apply list_elem_of_singleton in Hin. discriminate.
Qed.

(** A caller calls an unregistration function of its own. *)
Lemma consistent_unregister_external fs slot m w k :
  Forall (fun f => unregisterDeferred f ≠ DeleteCallback k) fs →
  consistent_parts fs slot m w →
  consistent_parts fs slot (JsMap.delete k m) w.
Proof.
  intros Hk (Hfs & Hkeys & Hown & Hheap).
  split; [| split; [| split]]; try assumption.
  - destruct fs as [| f [| f' fs]]; try assumption.
    destruct Hfs as (Hslot & Hlt & Hreg).
    split; [assumption |]. split; [assumption |].
    unfold registration_ok in *.
    destruct (unregisterDeferred f) as [| k'] eqn:Hu; [assumption |].
    apply elem_of_delete. split; [assumption |].
    apply Forall_cons in Hk as [Hk _]. congruence.
  - apply Forall_forall. intros k' Hin.
    apply list_elem_of_fmap in Hin as ([k'' cb] & -> & Hin).
    apply elem_of_delete in Hin as [Hin _].
    rewrite Forall_forall in Hkeys. apply Hkeys.
    apply list_elem_of_fmap. exists (k'', cb). done.
  - intros k' d msg Hin. apply elem_of_delete in Hin as [Hin _]. eauto.
Qed.

(** The [finally] blocks of the suspended call. *)
Lemma consistent_finally f slot tok w :
  consistent_parts [f] slot (CancellationToken._onCancelledCallbacks tok) w →
  consistent_parts [] None
    (CancellationToken._onCancelledCallbacks
       (CancellationToken.run_unregister (unregisterDeferred f) tok))
    w
  ∧ ∀ k cb,
      (k, cb) ∈ CancellationToken._onCancelledCallbacks
                  (CancellationToken.run_unregister (unregisterDeferred f) tok) →
      ∃ tag, cb = External tag.
Proof.
  intros (Hfs & Hkeys & Hown & Hheap).
  assert (Hext : ∀ k cb,
            (k, cb) ∈ CancellationToken._onCancelledCallbacks
                        (CancellationToken.run_unregister
                           (unregisterDeferred f) tok) →
            ∃ tag, cb = External tag).
  { intros k [d msg | tag] Hin; [exfalso | eauto].
    destruct (unregisterDeferred f) as [| k'] eqn:Hu; simpl in Hin.
    - destruct (Hown k d msg Hin) as (_ & f' & [= <-] & _ & Hu').
      congruence.
    - apply elem_of_delete in Hin as [Hin Hne].
      destruct (Hown k d msg Hin) as (_ & f' & [= <-] & _ & Hu').
      congruence. }
  split; [| exact Hext].
  split; [reflexivity |]. split; [| split]; try assumption.
  - destruct (unregisterDeferred f) as [| k']; simpl; [assumption |].
    apply Forall_forall. intros k Hin.
    apply list_elem_of_fmap in Hin as ([k'' cb] & -> & Hin).
    apply elem_of_delete in Hin as [Hin _].
    rewrite Forall_forall in Hkeys. apply Hkeys.
    apply list_elem_of_fmap. exists (k'', cb). done.
  - intros k d msg Hin. destruct (Hext k _ Hin) as [tag [=]].
Qed.
End consistent_parts.

Lemma loop_pass_consistent opts st r st' :
  consistent_parts [] (onChange (listener st))
    (CancellationToken._onCancelledCallbacks (cancellationToken st)) (world st) →
  loop_pass opts st = (r, st') →
  consistent_parts (suspended r) (onChange (listener st'))
    (CancellationToken._onCancelledCallbacks (cancellationToken st')) (world st').
Proof.
  intros Hc. pose proof Hc as (Hslot & Hkeys & Hown & Hheap).
  unfold loop_pass. rewrite Hslot.
  destruct (error (listener st)); [intros [= <- <-]; exact Hc |].
  destruct (completed (listener st)); [intros [= <- <-]; exact Hc |].
  destruct (shift_loop opts (snapshots (listener st))) as [[s |] rest];
    [intros [= <- <-]; exact Hc |].
  assert (Hnone : ∀ k d msg,
            ¬ (k, RejectDeferred d msg)
              ∈ CancellationToken._onCancelledCallbacks (cancellationToken st)).
  { intros k d msg Hin. destruct (Hown k d msg Hin) as (_ & f & [=] & _). }
  assert (Hnew : (heap (world st) ++ [Deferred.new]) !! length (heap (world st))
                 = Some (Deferred.new (T := unit))).
  { rewrite lookup_app_r by lia. rewrite Nat.sub_diag. reflexivity. }
  unfold alloc, CancellationToken.registerDeferred, CancellationToken.onCancelled.
  simpl. destruct (CancellationToken._cancelled (cancellationToken st)).
  - intros [= <- <-]. simpl.
    split; [| split; [| split]]; simpl.
    + split; [reflexivity |].
      split; [rewrite length_alter, length_app; simpl; lia |].
      unfold registration_ok, promise_at. simpl.
      rewrite list_lookup_alter_eq, Hnew. reflexivity.
    + exact Hkeys.
    + intros k d msg Hin. destruct (Hnone k d msg Hin).
    + apply Forall_alter_heap.
      * intros [[| v | e]] Hx reason; simpl; [| done | apply Hx].
        intros [= <-]. reflexivity.
      * apply Forall_app. split; [exact Hheap |]. repeat constructor. done.
  - intros [= <- <-]. simpl. rewrite set_fresh by exact Hkeys.
    split; [| split; [| split]]; simpl.
    + split; [reflexivity |]. split; [rewrite length_app; simpl; lia |].
      unfold registration_ok. simpl. apply elem_of_app. right. left.
    + unfold JsMap.keys. rewrite fmap_app. apply Forall_app. split.
      * eapply Forall_impl; [exact Hkeys |]. simpl. intros; lia.
      * repeat constructor.
    + intros k d msg Hin. apply elem_of_app in Hin as [Hin | Hin].
      * destruct (Hnone k d msg Hin).
      * apply list_elem_of_singleton in Hin. injection Hin as -> -> ->.
        split; [reflexivity |]. eexists. split; [reflexivity |]. done.
    + apply Forall_app. split; [exact Hheap |]. repeat constructor. done.
Qed.

Lemma notify_consistent fs st :
  consistent_parts fs (onChange (listener st))
    (CancellationToken._onCancelledCallbacks (cancellationToken st)) (world st) →
  consistent_parts fs (onChange (listener (notify st)))
    (CancellationToken._onCancelledCallbacks (cancellationToken (notify st)))
    (world (notify st)).
Proof.
  unfold notify. destruct (onChange (listener st)) eqn:Hs; simpl; rewrite ?Hs;
    [apply consistent_resolve | done].
Qed.

Lemma consistent_single c f i :
  consistent c → frames c !! i = Some f → frames c = [f] ∧ i = 0.
Proof.
  intros (Hfs & _) Hi. destruct (frames c) as [| f0 [| f1 fs]]; [done | | done].
  destruct i as [| i]; [| done]. injection Hi as ->. done.
Qed.

Lemma consistent_slot c f :
  consistent c → frames c = [f] →
  onChange (listener (state c)) = Some (deferred f).
Proof. intros (Hfs & _) Hf. rewrite Hf in Hfs. apply Hfs. Qed.

Lemma exec_consistent a c r c' :
  consistent c → exec a c = Some (r, c') → consistent c'.
Proof.
  intros Hc. unfold consistent in *. destruct a; simpl.
  - (* Call *)
    destruct (frames c) as [| f [| f' fs]] eqn:Hfs.
    + unfold waitForSnapshot. pose proof Hc as (-> & _).
      destruct (loop_pass opts (state c)) as [r1 st1] eqn:Hl.
      intros [= <- <-]. simpl.
      apply (loop_pass_consistent _ _ _ _ Hc Hl).
    + unfold waitForSnapshot. pose proof Hc as ((-> & _) & _).
      intros [= <- <-]. exact Hc.
    + destruct Hc as ([] & _).
  - (* Resume *)
    destruct (frames c !! i) as [f |] eqn:Hi; [| done]. simpl.
    destruct (consistent_single c f i Hc Hi) as [Hfs ->].
    rewrite Hfs in Hc. pose proof Hc as ((Hslot & _) & _).
    destruct (consistent_finally f _ (cancellationToken (state c)) _ Hc)
      as [Hfin _].
    unfold resume.
    destruct (heap (world (state c)) !! deferred f) as [d |]; [| done]. simpl.
    rewrite finally_blocks_legal by assumption.
    destruct (Deferred.promise d) as [| v | reason]; [done | |]; simpl.
    + destruct (loop_pass _ _) as [r1 st1] eqn:Hl. simpl.
      intros [= <- <-]. simpl. rewrite Hfs. simpl.
      eapply loop_pass_consistent; [| exact Hl]. exact Hfin.
    + intros [= <- <-]. simpl. rewrite Hfs. exact Hfin.
  - (* Next *)
    intros [= <- <-]. simpl. unfold observer_next.
    apply notify_consistent. exact Hc.
  - (* ObserverError *)
    intros [= <- <-]. simpl. unfold observer_error.
    apply notify_consistent. exact Hc.
  - (* Complete *)
    intros [= <- <-]. simpl. unfold observer_complete.
    apply notify_consistent. exact Hc.
  - (* Clear *)
    intros [= <- <-]. exact Hc.
  - (* Cancel *)
    intros [= <- <-]. simpl. apply consistent_forEach; [done | exact Hc].
  - (* OnCancelled *)
    unfold CancellationToken.onCancelled.
    destruct (CancellationToken._cancelled (cancellationToken (state c))).
    + intros [= <- <-]. simpl.
      destruct Hc as (Hfs & Hkeys & Hown & Hheap).
      split; [| split; [| split]]; simpl; assumption.
    + intros [= <- <-]. simpl. apply consistent_register_external, Hc.
  - (* Unregister *)
    case_decide as Hk; [| done]. intros [= <- <-]. simpl.
    apply consistent_unregister_external; [apply Hk | exact Hc].
Qed.

Lemma run_consistent tr : ∀ c rs c',
  consistent c → run tr c = Some (rs, c') → consistent c'.
Proof.
  induction tr as [| a tr IH]; intros c rs c' Hc; simpl.
  - intros [= <- <-]. exact Hc.
  - destruct (exec a c) as [[r c1] |] eqn:Ha; [| done]. simpl.
    destruct (run tr c1) as [[rs1 c2] |] eqn:Hr; [| done]. simpl.
    intros [= <- <-]. eapply IH; [| exact Hr].
    eapply exec_consistent; eassumption.
Qed.

Lemma init_consistent : consistent init.
Proof.
  split; [reflexivity |]. split; [constructor |]. split; [| constructor].
  intros k d msg Hin. inversion Hin.
Qed.

Lemma reachable_consistent c : reachable c → consistent c.
Proof.
  intros (tr & rs & Hrun). exact (run_consistent tr _ _ _ init_consistent Hrun).
Qed.

(** ** One call at a time *)

Lemma consistent_waiting c f :
  consistent c → f ∈ frames c →
  frames c = [f] ∧ onChange (listener (state c)) = Some (deferred f).
Proof.
  intros Hc Hin. apply list_elem_of_lookup in Hin as [i Hi].
  destruct (consistent_single c f i Hc Hi) as [Hfs _].
  split; [assumption |]. apply consistent_slot; assumption.
Qed.

(** C6.  While a call of [waitForSnapshot] is suspended, a second call on
    the same listener fails in its first segment with the usage error; it
    changes nothing and is not queued: the configuration is the same, with
    the first call as the only suspended one. *)
Theorem second_call_is_usage_error (c : Config) (f : frame)
    (opts : option WaitForSnapshotOptions.t) :
  reachable c →
  f ∈ frames c →
  waitForSnapshot opts (state c) = (Thrown usage_error, state c)
  ∧ exec (Call opts) c = Some (Some (Thrown usage_error), c)
  ∧ frames c = [f].
Proof.
  intros Hr Hin.
  destruct (consistent_waiting c f (reachable_consistent c Hr) Hin)
    as [Hfs Hslot].
  assert (Hw : waitForSnapshot opts (state c) = (Thrown usage_error, state c)).
  { unfold waitForSnapshot. rewrite Hslot. reflexivity. }
  split; [exact Hw |]. split; [| exact Hfs].
  simpl. rewrite Hw. destruct c as [st fs]. simpl. rewrite app_nil_r.
  reflexivity.
Qed.

Lemma second_call_is_usage_error_witness :
  exec (Call no_pending_writes) waiting
  = Some (Some (Thrown usage_error), waiting).
Proof.
  apply (second_call_is_usage_error waiting waiting_frame no_pending_writes).
  - exists [Call None]. eexists. reflexivity.
  - left.
Defined.

(** ** The internal assertions *)

Lemma loop_pass_legal opts st :
  onChange (listener st) = None → ¬ illegal_state (Some (loop_pass opts st).1).
Proof.
  intros Hslot. unfold loop_pass, alloc, CancellationToken.registerDeferred,
    CancellationToken.onCancelled. rewrite Hslot.
  destruct (error (listener st)); [intros [H | H]; discriminate |].
  destruct (completed (listener st)); [intros [H | H]; discriminate |].
  destruct (shift_loop opts (snapshots (listener st))) as [[s |] rest];
    [intros [H | H]; discriminate |].
  simpl. destruct (CancellationToken._cancelled (cancellationToken st));
    intros [H | H]; discriminate.
Qed.

Lemma consistent_rejected c d x reason :
  consistent c →
  heap (world (state c)) !! d = Some x →
  Deferred.promise x = Promise.rejected reason →
  reason = cancelled_error.
Proof.
  intros (_ & _ & _ & Hheap) Hd Hx.
  exact (Forall_lookup_1 _ _ _ _ Hheap Hd reason Hx).
Qed.

(** C10.  The two "illegal state" assertions of [waitForSnapshot] never
    fire.  In every configuration that a sequence of actions can reach from
    a new listener, a fortiori when no call is made while another is
    outstanding, no segment of [waitForSnapshot] ends with one of the two
    errors; for a suspended call the [onChange] slot holds the closure that
    the call installed, so that the check after the [await] passes, and the
    [finally] blocks leave the slot null for the next pass of the loop. *)
Theorem illegal_state_unreachable (c : Config) (a : action)
    (r : option result) (c' : Config) :
  reachable c →
  exec a c = Some (r, c') →
  ¬ illegal_state r
  ∧ (∀ f, f ∈ frames c →
          onChange (listener (state c)) = Some (deferred f)
          ∧ (finally_blocks f (state c)).1 = None
          ∧ onChange (listener (finally_blocks f (state c)).2) = None).
Proof.
  intros Hr Ha. pose proof (reachable_consistent c Hr) as Hc.
  split.
  - destruct a; simpl in Ha;
      try (injection Ha as <- _; intros [H | H]; discriminate).
    + unfold waitForSnapshot in Ha.
      destruct (onChange (listener (state c))) eqn:Hslot.
      * injection Ha as <- _. intros [H | H]; discriminate.
      * pose proof (loop_pass_legal opts (state c) Hslot) as Hl.
        destruct (loop_pass opts (state c)) as [r1 st1].
        injection Ha as <- _. exact Hl.
    + destruct (frames c !! i) as [f |] eqn:Hi; [| done]. simpl in Ha.
      destruct (consistent_single c f i Hc Hi) as [Hfs ->].
      pose proof (consistent_slot c f Hc Hfs) as Hslot.
      unfold resume in Ha.
      destruct (heap (world (state c)) !! deferred f) as [d |] eqn:Hd;
        [| done].
      simpl in Ha. rewrite finally_blocks_legal in Ha by assumption.
      destruct (Deferred.promise d) as [| v | reason] eqn:Hp; [done | |];
        simpl in Ha.
      * match type of Ha with
        | context [loop_pass ?o ?s] =>
            pose proof (loop_pass_legal o s eq_refl) as Hl;
            destruct (loop_pass o s) as [r1 st1]
        end.
        injection Ha as <- _. exact Hl.
      * injection Ha as <- _.
        rewrite (consistent_rejected c _ _ _ Hc Hd Hp).
        intros [H | H]; discriminate.
    + destruct (CancellationToken.onCancelled _ _ _) as [[u tok] w].
      injection Ha as <- _. intros [H | H]; discriminate.
    + case_decide as Hk; [| done]. injection Ha as <- _.
      intros [H | H]; discriminate.
  - intros f Hin. destruct (consistent_waiting c f Hc Hin) as [_ Hslot].
    split; [exact Hslot |].
    rewrite finally_blocks_legal by assumption. done.
Qed.

Lemma illegal_state_unreachable_witness :
  ¬ illegal_state (Some (Thrown usage_error))
  ∧ onChange (listener (state waiting)) = Some (deferred waiting_frame).
Proof.
  pose proof (illegal_state_unreachable waiting (Call None)
                (Some (Thrown usage_error)) waiting) as H.
  destruct H as [H1 H2].
  - exists [Call None]. eexists. reflexivity.
  - reflexivity.
  - split; [exact H1 |]. apply (H2 waiting_frame). left.
Defined.

(** ** Cancellation of a suspended call *)

Lemma foldl_heap_effect_rejects (m : JsMap.t callback) : ∀ h d k x,
  (k, RejectDeferred d None) ∈ m →
  (∀ k' d' msg, (k', RejectDeferred d' msg) ∈ m → msg = None) →
  h !! d = Some x →
  Deferred.promise x = Promise.pending
  ∨ Deferred.promise x = Promise.rejected cancelled_error →
  Deferred.promise <$> foldl (fun h kv => heap_effect kv.2 h) h m !! d
  = Some (Promise.rejected cancelled_error).
Proof.
  induction m as [| [k0 cb0] m IH]; intros h d k x Hin Hmsg Hd Hx;
    [inversion Hin |].
  simpl.
  assert (Hstep : ∃ y,
            heap_effect cb0 h !! d = Some y
            ∧ (Deferred.promise y = Promise.pending
               ∨ Deferred.promise y = Promise.rejected cancelled_error)
            ∧ (cb0 = RejectDeferred d None →
               Deferred.promise y = Promise.rejected cancelled_error)).
  { destruct cb0 as [d' msg | tag]; unfold heap_effect; simpl.
    - rewrite (Hmsg k0 d' msg) by left. simpl.
      destruct (decide (d' = d)) as [-> | Hne].
      + rewrite list_lookup_alter_eq, Hd. simpl. eexists. split; [reflexivity |].
        destruct x as [[| v | e]]; simpl in *.
        * split; [right |]; reflexivity.
        * destruct Hx; discriminate.
        * destruct Hx as [Hx | Hx]; [discriminate |]. split; [right |]; done.
      + rewrite list_lookup_alter_ne by assumption. exists x.
        split; [assumption |]. split; [assumption |]. congruence.
    - exists x. split; [assumption |]. split; [assumption |]. discriminate. }
  destruct Hstep as (y & Hy & Hpy & Hhead).
  apply elem_of_cons in Hin as [Hin | Hin].
  - injection Hin as _ <-. specialize (Hhead eq_refl).
    rewrite (foldl_heap_effect_settled m _ d y Hy) by (rewrite Hhead; done).
    simpl. rewrite Hhead. reflexivity.
  - apply (IH _ d k y); try assumption.
    intros k' d' msg H'. apply (Hmsg k' d'). right. assumption.
Qed.

Lemma notify_promise_at st d p :
  promise_at (world st) d = Some p →
  Promise.settled p = true →
  promise_at (world (notify st)) d = Some p.
Proof.
  intros Hp Hs. unfold notify. destruct (onChange (listener st)); [| assumption].
  simpl. apply promise_at_settled_alter; [apply resolve_settled | assumption..].
Qed.

Lemma forEach_promise_at m w d p :
  promise_at w d = Some p →
  Promise.settled p = true →
  promise_at (JsMap.forEach invoke m w) d = Some p.
Proof.
  unfold promise_at. intros Hp Hs. rewrite forEach_invoke_heap.
  destruct (heap w !! d) as [x |] eqn:Hx; [| done].
  injection Hp as <-.
  rewrite (foldl_heap_effect_settled m _ d x Hx Hs). reflexivity.
Qed.

(** Between the settling of its promise and its continuation, a suspended
    call stays as it is, whatever else happens. *)
Lemma exec_keeps_waiter a c r c' f p :
  consistent c →
  frames c = [f] →
  is_resume a = false →
  promise_at (world (state c)) (deferred f) = Some p →
  Promise.settled p = true →
  exec a c = Some (r, c') →
  frames c' = [f] ∧ promise_at (world (state c')) (deferred f) = Some p.
Proof.
  intros Hc Hfs Hres Hp Hs. destruct a; simpl; try discriminate.
  - unfold waitForSnapshot. rewrite (consistent_slot c f Hc Hfs).
    intros [= _ <-]. simpl. rewrite Hfs. done.
  - intros [= _ <-]. simpl. split; [assumption |].
    apply notify_promise_at; assumption.
  - intros [= _ <-]. simpl. split; [assumption |].
    apply notify_promise_at; assumption.
  - intros [= _ <-]. simpl. split; [assumption |].
    apply notify_promise_at; assumption.
  - intros [= _ <-]. simpl. done.
  - intros [= _ <-]. simpl. split; [assumption |].
    apply forEach_promise_at; assumption.
  - unfold CancellationToken.onCancelled.
    destruct (CancellationToken._cancelled (cancellationToken (state c)));
      intros [= _ <-]; simpl; done.
  - case_decide; [| done]. intros [= _ <-]. simpl. done.
Qed.

Lemma run_keeps_waiter tr : ∀ c rs c' f p,
  consistent c →
  frames c = [f] →
  forallb (negb ∘ is_resume) tr = true →
  promise_at (world (state c)) (deferred f) = Some p →
  Promise.settled p = true →
  run tr c = Some (rs, c') →
  consistent c' ∧ frames c' = [f]
  ∧ promise_at (world (state c')) (deferred f) = Some p.
Proof.
  induction tr as [| a tr IH]; intros c rs c' f p Hc Hfs Htr Hp Hs; simpl.
  - intros [= _ <-]. done.
  - simpl in Htr. apply andb_prop in Htr as [Ha Htr].
    apply negb_true_iff in Ha.
    destruct (exec a c) as [[r c1] |] eqn:He; [| done]. simpl.
    destruct (run tr c1) as [[rs1 c2] |] eqn:Hr; [| done]. simpl.
    intros [= _ <-].
    destruct (exec_keeps_waiter a c r c1 f p Hc Hfs Ha Hp Hs He) as [Hfs1 Hp1].
    apply (IH c1 rs1 c2 f p); try assumption.
    eapply exec_consistent; eassumption.
Qed.

Lemma cancel_rejects_waiter c f r c1 :
  consistent c →
  frames c = [f] →
  promise_at (world (state c)) (deferred f) = Some Promise.pending →
  exec Cancel c = Some (r, c1) →
  promise_at (world (state c1)) (deferred f)
  = Some (Promise.rejected cancelled_error).
Proof.
  intros Hc Hfs Hp. simpl. intros [= _ <-]. simpl.
  destruct Hc as (Hw & _ & Hown & _). rewrite Hfs in Hw, Hown.
  destruct Hw as (_ & _ & Hreg). unfold registration_ok in Hreg.
  destruct (unregisterDeferred f) as [| k]; [congruence |].
  unfold promise_at in *. rewrite forEach_invoke_heap.
  destruct (heap (world (state c)) !! deferred f) as [x |] eqn:Hx; [| done].
  injection Hp as Hp.
  apply (foldl_heap_effect_rejects _ _ _ k x); try assumption.
  - intros k' d' msg Hin. apply (Hown k' d' msg Hin).
  - left. assumption.
Qed.

Lemma elem_of_set_inv {V} (k k' : nat) (v v' : V) (m : JsMap.t V) :
  (k', v') ∈ JsMap.set k v m → (k', v') ∈ m ∨ k' = k.
Proof.
  induction m as [| [k0 v0] m IH]; simpl.
  - intros Hin. apply list_elem_of_singleton in Hin as [= -> _]. by right.
  - case_decide.
    + rewrite !elem_of_cons. intros [[= -> _] | Hin]; tauto.
    + rewrite !elem_of_cons. intros [Heq | Hin]; [tauto |].
      destruct (IH Hin); tauto.
Qed.

Lemma loop_pass_awaiting opts st f st' :
  loop_pass opts st = (Awaiting f, st') →
  idle_listener (listener st')
  ∧ options f = opts
  ∧ deferred f = length (heap (world st))
  ∧ onChange (listener st') = Some (deferred f).
Proof.
  unfold loop_pass, alloc, CancellationToken.registerDeferred,
    CancellationToken.onCancelled.
  destruct (onChange (listener st)); [discriminate |].
  destruct (error (listener st)) eqn:He; [discriminate |].
  destruct (completed (listener st)) eqn:Hd; [discriminate |].
  destruct (shift_loop opts (snapshots (listener st))) as [[s |] rest] eqn:Hs;
    [discriminate |].
  apply shift_loop_None in Hs as [-> _]. simpl.
  destruct (CancellationToken._cancelled (cancellationToken st));
    intros [= <- <-]; simpl; rewrite He, Hd; done.
Qed.

Lemma loop_pass_callbacks_inv opts st k cb :
  (k, cb) ∈ CancellationToken._onCancelledCallbacks
              (cancellationToken (loop_pass opts st).2) →
  (k, cb) ∈ CancellationToken._onCancelledCallbacks (cancellationToken st)
  ∨ k = symbols (world st).
Proof.
  unfold loop_pass, alloc, CancellationToken.registerDeferred,
    CancellationToken.onCancelled.
  destruct (onChange (listener st)); [tauto |].
  destruct (error (listener st)); [tauto |].
  destruct (completed (listener st)); [tauto |].
  destruct (shift_loop opts (snapshots (listener st))) as [[s |] rest];
    [tauto |].
  simpl. destruct (CancellationToken._cancelled (cancellationToken st));
    simpl; [tauto |].
  apply elem_of_set_inv.
Qed.

Lemma loop_pass_cancelled_noop opts st f st' :
  CancellationToken.cancelled (cancellationToken st) = true →
  loop_pass opts st = (Awaiting f, st') →
  unregisterDeferred f = Noop.
Proof.
  unfold CancellationToken.cancelled, loop_pass, alloc,
    CancellationToken.registerDeferred, CancellationToken.onCancelled.
  intros Hc. rewrite Hc.
  destruct (onChange (listener st)); [discriminate |].
  destruct (error (listener st)); [discriminate |].
  destruct (completed (listener st)); [discriminate |].
  destruct (shift_loop opts (snapshots (listener st))) as [[s |] rest];
    [discriminate |].
  simpl. intros [= <- _]. reflexivity.
Qed.

Lemma waitForSnapshot_not_refused opts st :
  onChange (listener st) = None →
  (waitForSnapshot opts st).1 ≠ Thrown usage_error.
Proof.
  intros Hslot. rewrite waitForSnapshot_loop_pass by assumption.
  unfold loop_pass, alloc, CancellationToken.registerDeferred,
    CancellationToken.onCancelled. rewrite Hslot.
  destruct (error (listener st)); [discriminate |].
  destruct (completed (listener st)); [discriminate |].
  destruct (shift_loop opts (snapshots (listener st))) as [[s |] rest];
    [discriminate |].
  simpl. destruct (CancellationToken._cancelled (cancellationToken st));
    discriminate.
Qed.

(** What the continuation of a suspended call is made of: the [finally]
    blocks, then the rejection or a pass of the loop. *)
Lemma exec_resume_inv c i r c' :
  consistent c →
  exec (Resume i) c = Some (r, c') →
  ∃ f r',
    frames c = [f] ∧ i = 0 ∧ r = Some r'
    ∧ frames c' = suspended r'
    ∧ ((∃ reason, r' = Thrown reason
                  ∧ state c' = (finally_blocks f (state c)).2)
       ∨ (r', state c')
         = loop_pass (options f) (finally_blocks f (state c)).2).
Proof.
  intros Hc Hexec. simpl in Hexec.
  destruct (frames c !! i) as [f |] eqn:Hi; [| done]. simpl in Hexec.
  destruct (consistent_single c f i Hc Hi) as [Hfs ->].
  pose proof (consistent_slot c f Hc Hfs) as Hslot.
  exists f. rewrite Hfs in Hexec. unfold resume in Hexec.
  destruct (heap (world (state c)) !! deferred f) as [d |]; [| done].
  simpl in Hexec.
  rewrite (finally_blocks_legal f (state c) Hslot) in Hexec |- *.
  destruct (Deferred.promise d) as [| v | reason]; [done | |];
    simpl in Hexec.
  - destruct (loop_pass _ _) as [r1 st1] eqn:Hl. simpl in Hexec.
    injection Hexec as <- <-. exists r1. simpl.
    repeat split; try done. right. reflexivity.
  - injection Hexec as <- <-. exists (Thrown reason). simpl.
    repeat split; try done. left. eauto.
Qed.

(** C5, as the code has it.  For every state that a sequence of actions
    reaches from a new listener:
    - every exit from the [await] of a suspended call, whatever settled its
      promise, runs the [finally] blocks: the slot no longer holds the
      call's closure and the token no longer holds its registration; when
      the call returns or throws, no call is suspended, the slot is null,
      the token holds caller-supplied callbacks only and a new call is not
      refused; when it suspends again, it does so with a new closure and a
      new registration;
    - when the token is cancelled while the promise of the suspended call
      is still pending, then, whatever happens between [cancel()] and the
      continuation of the call, the continuation throws the
      [CancellationTokenCancelledError];
    - once the token is cancelled, a call that suspends, for the first time
      or again after a wake-up, is rejected with that error by its next
      continuation. *)
Theorem cancellation_rejects_suspended_call (c : Config) :
  reachable c →
  (∀ i r c',
     exec (Resume i) c = Some (r, c') →
     ∃ f r',
       frames c = [f] ∧ i = 0 ∧ r = Some r'
       ∧ onChange (listener (state c)) = Some (deferred f)
       ∧ onChange (listener (state c')) ≠ Some (deferred f)
       ∧ (∀ k cb,
            unregisterDeferred f = DeleteCallback k →
            ¬ (k, cb) ∈ CancellationToken._onCancelledCallbacks
                          (cancellationToken (state c')))
       ∧ (∀ k msg,
            ¬ (k, RejectDeferred (deferred f) msg)
              ∈ CancellationToken._onCancelledCallbacks
                  (cancellationToken (state c')))
       ∧ match r' with
         | Awaiting f' =>
             frames c' = [f']
             ∧ onChange (listener (state c')) = Some (deferred f')
         | _ =>
             frames c' = []
             ∧ onChange (listener (state c')) = None
             ∧ (∀ k cb,
                  (k, cb) ∈ CancellationToken._onCancelledCallbacks
                              (cancellationToken (state c')) →
                  ∃ tag, cb = External tag)
             ∧ ∀ opts, (waitForSnapshot opts (state c')).1 ≠ Thrown usage_error
         end)
  ∧ (∀ f tr rs c1,
       f ∈ frames c →
       promise_at (world (state c)) (deferred f) = Some Promise.pending →
       forallb (negb ∘ is_resume) tr = true →
       run (Cancel :: tr) c = Some (rs, c1) →
       ∃ c2,
         exec (Resume 0) c1 = Some (Some (Thrown cancelled_error), c2)
         ∧ frames c2 = []
         ∧ onChange (listener (state c2)) = None
         ∧ (∀ k cb,
              (k, cb) ∈ CancellationToken._onCancelledCallbacks
                          (cancellationToken (state c2)) →
              ∃ tag, cb = External tag)
         ∧ ∀ opts, (waitForSnapshot opts (state c2)).1 ≠ Thrown usage_error)
  ∧ (CancellationToken.cancelled (cancellationToken (state c)) = true →
     ∀ a f' c',
       exec a c = Some (Some (Awaiting f'), c') →
       ∃ c'',
         exec (Resume 0) c' = Some (Some (Thrown cancelled_error), c'')
         ∧ frames c'' = []
         ∧ onChange (listener (state c'')) = None).
Proof.
  intros Hr. pose proof (reachable_consistent c Hr) as Hc.
  (* the continuation of a call whose promise is rejected by cancellation *)
  assert (Hrejected : ∀ c0 f,
            consistent c0 → frames c0 = [f] →
            promise_at (world (state c0)) (deferred f)
            = Some (Promise.rejected cancelled_error) →
            exec (Resume 0) c0
            = Some (Some (Thrown cancelled_error),
                    {| state := (finally_blocks f (state c0)).2;
                       frames := [] |})).
  { intros c0 f Hc0 Hfs0 Hp0.
    pose proof (consistent_slot c0 f Hc0 Hfs0) as Hslot0.
    unfold promise_at in Hp0.
    destruct (heap (world (state c0)) !! deferred f) as [x |] eqn:Hx; [| done].
    injection Hp0 as Hp0. simpl. rewrite Hfs0. simpl.
    rewrite (resume_rejected f (state c0) x cancelled_error Hslot0 Hx Hp0).
    reflexivity. }
  (* a configuration with no suspended call *)
  assert (Hsettled : ∀ c0,
            consistent c0 → frames c0 = [] →
            onChange (listener (state c0)) = None
            ∧ (∀ k cb,
                 (k, cb) ∈ CancellationToken._onCancelledCallbacks
                             (cancellationToken (state c0)) →
                 ∃ tag, cb = External tag)
            ∧ ∀ opts, (waitForSnapshot opts (state c0)).1 ≠ Thrown usage_error).
  { intros c0 (Hfs0 & _ & Hown0 & _) Hnil. rewrite Hnil in Hfs0, Hown0.
    split; [exact Hfs0 |]. split.
    - intros k [d msg | tag] Hin; [| eauto].
      destruct (Hown0 k d msg Hin) as (_ & f0 & [=] & _).
    - intros opts. apply waitForSnapshot_not_refused. exact Hfs0. }
  split; [| split].
  - (* every exit *)
    intros i r c' Hexec.
    pose proof (exec_consistent _ _ _ _ Hc Hexec) as Hc'.
    destruct (exec_resume_inv c i r c' Hc Hexec)
      as (f & r' & Hfs & -> & -> & Hfs' & Hcase).
    pose proof (consistent_slot c f Hc Hfs) as Hslot.
    pose proof Hc as (Hw & Hkeys & _). rewrite Hfs in Hw.
    destruct Hw as (_ & Hlt & Hreg).
    assert (Hfin : finally_blocks f (state c)
                   = (None,
                      set_token
                        (CancellationToken.run_unregister
                           (unregisterDeferred f) (cancellationToken (state c)))
                        (set_onChange None (state c))))
      by (apply finally_blocks_legal; exact Hslot).
    assert (Hnew : ∀ f', r' = Awaiting f' →
              deferred f' = length (heap (world (state c)))).
    { intros f' ->. destruct Hcase as [(reason & [=] & _) | Hpass].
      symmetry in Hpass.
      destruct (loop_pass_awaiting _ _ _ _ Hpass) as (_ & _ & Hd & _).
      rewrite Hd, Hfin. reflexivity. }
    assert (Hshape : match r' with
                     | Awaiting f' =>
                         frames c' = [f']
                         ∧ onChange (listener (state c')) = Some (deferred f')
                     | _ => frames c' = []
                     end).
    { destruct r' as [s | e | f']; simpl in Hfs'; try exact Hfs'.
      split; [exact Hfs' |]. apply consistent_slot; assumption. }
    exists f, r'. split; [exact Hfs |]. split; [reflexivity |].
    split; [reflexivity |]. split; [exact Hslot |].
    split; [| split; [| split]].
    + destruct r' as [s | e | f'].
      * destruct (Hsettled c' Hc' Hshape) as [-> _]. discriminate.
      * destruct (Hsettled c' Hc' Hshape) as [-> _]. discriminate.
      * destruct Hshape as [_ ->]. rewrite (Hnew f' eq_refl).
        intros [= Heq]. lia.
    + intros k cb Hu Hin.
      unfold registration_ok in Hreg. rewrite Hu in Hreg.
      assert (Hk : k < symbols (world (state c))).
      { rewrite Forall_forall in Hkeys. apply Hkeys.
        apply list_elem_of_fmap. exists (k, RejectDeferred (deferred f) None).
        done. }
      assert (Hgone : ¬ (k, cb)
                        ∈ CancellationToken._onCancelledCallbacks
                            (cancellationToken (finally_blocks f (state c)).2)).
      { rewrite Hfin, Hu. simpl. rewrite elem_of_delete. tauto. }
      destruct Hcase as [(reason & _ & Hst) | Hpass].
      * rewrite Hst in Hin. exact (Hgone Hin).
      * assert (Hst : state c'
                      = (loop_pass (options f)
                           (finally_blocks f (state c)).2).2)
          by (rewrite <- Hpass; reflexivity).
        rewrite Hst in Hin.
        apply loop_pass_callbacks_inv in Hin as [Hin | Heq];
          [exact (Hgone Hin) |].
        rewrite Hfin in Heq. simpl in Heq. lia.
    + intros k msg Hin.
      destruct Hc' as (_ & _ & Hown' & _).
      destruct (Hown' k _ msg Hin) as (_ & f' & Hf' & Hd' & _).
      destruct r' as [s | e | f'']; simpl in Hfs'; try congruence.
      rewrite Hfs' in Hf'. injection Hf' as <-.
      rewrite (Hnew f'' eq_refl) in Hd'. lia.
    + destruct r' as [s | e | f'].
      * split; [exact Hshape |]. apply (Hsettled c' Hc' Hshape).
      * split; [exact Hshape |]. apply (Hsettled c' Hc' Hshape).
      * exact Hshape.
  - (* cancellation while the promise is pending *)
    intros f tr rs c1 Hin Hp Htr Hrun.
    destruct (consistent_waiting c f Hc Hin) as [Hfs Hslot].
    simpl in Hrun.
    destruct (run tr _) as [[rs1 c1'] |] eqn:Htail; [| done].
    injection Hrun as _ <-.
    set (c0 := with_state _ c) in Htail.
    assert (Hcancel : exec Cancel c = Some (None, c0)) by reflexivity.
    pose proof (exec_consistent _ _ _ _ Hc Hcancel) as Hc0.
    pose proof (cancel_rejects_waiter c f _ _ Hc Hfs Hp Hcancel) as Hp0.
    destruct (run_keeps_waiter tr c0 rs1 c1' f _ Hc0 Hfs Htr Hp0 eq_refl Htail)
      as (Hc1 & Hfs1 & Hp1).
    pose proof (Hrejected c1' f Hc1 Hfs1 Hp1) as Hexec.
    eexists. split; [exact Hexec |]. split; [reflexivity |].
    apply (Hsettled _ (exec_consistent _ _ _ _ Hc1 Hexec) eq_refl).
  - (* suspension on a cancelled token *)
    intros Hcancelled a f' c' Hexec.
    pose proof (exec_consistent _ _ _ _ Hc Hexec) as Hc'.
    assert (Hnoop : unregisterDeferred f' = Noop ∧ f' ∈ frames c').
    { destruct a; simpl in Hexec; try discriminate;
        try (destruct (CancellationToken.onCancelled _ _ _) as [[? ?] ?];
             discriminate);
        try (case_decide; discriminate).
      - unfold waitForSnapshot in Hexec.
        destruct (onChange (listener (state c))); [discriminate |].
        destruct (loop_pass opts (state c)) as [r1 st1] eqn:Hl.
        injection Hexec as -> <-. simpl. split.
        + apply (loop_pass_cancelled_noop _ _ _ _ Hcancelled Hl).
        + apply elem_of_app. right. left.
      - destruct (exec_resume_inv c i _ c' Hc Hexec)
          as (f & r' & Hfs & -> & [= <-] & Hfs' & Hcase).
        destruct Hcase as [(reason & [=] & _) | Hpass].
        split; [| rewrite Hfs'; left].
        symmetry in Hpass.
        apply (loop_pass_cancelled_noop (options f)
                 (finally_blocks f (state c)).2 f' (state c'));
          [| exact Hpass].
        rewrite (finally_blocks_legal f (state c) (consistent_slot c f Hc Hfs)).
        unfold CancellationToken.cancelled in *.
        destruct (unregisterDeferred f); exact Hcancelled. }
    destruct Hnoop as [Hnoop Hin'].
    destruct (consistent_waiting c' f' Hc' Hin') as [Hfs' _].
    pose proof Hc' as (Hw & _). rewrite Hfs' in Hw.
    destruct Hw as (_ & _ & Hreg). unfold registration_ok in Hreg.
    rewrite Hnoop in Hreg.
    pose proof (Hrejected c' f' Hc' Hfs' Hreg) as Hexec'.
    eexists. split; [exact Hexec' |]. split; [reflexivity |].
    apply (Hsettled _ (exec_consistent _ _ _ _ Hc' Hexec') eq_refl).
Qed.

Lemma cancellation_rejects_suspended_call_witness :
  (∃ c2,
     exec (Resume 0) (default init (after [Call None; Cancel; Complete]))
     = Some (Some (Thrown cancelled_error), c2)
     ∧ frames c2 = []
     ∧ onChange (listener (state c2)) = None)
  ∧ onChange
      (listener (state (default init (after [Call None; Next snap_a; Resume 0]))))
    ≠ Some (deferred waiting_frame).
Proof.
  split.
  - destruct (cancellation_rejects_suspended_call waiting) as (_ & H & _).
    + exists [Call None]. eexists. reflexivity.
    + destruct (H waiting_frame [Complete] [None; None]
                  (default init (after [Call None; Cancel; Complete])))
        as (c2 & H1 & H2 & H3 & _).
      * left.
      * reflexivity.
      * reflexivity.
      * reflexivity.
      * exists c2. done.
  - destruct (cancellation_rejects_suspended_call
                (default init (after [Call None; Next snap_a]))) as (H & _).
    + exists [Call None; Next snap_a]. eexists. reflexivity.
    + destruct (H 0 (Some (Returned snap_a))
                  (default init (after [Call None; Next snap_a; Resume 0]))
                  eq_refl)
        as (f & r' & Hf & _ & _ & _ & Hne & _).
      injection Hf as <-. exact Hne.
Defined.

(** C5 as stated fails for a call that an event has already woken: the
    call is suspended, [observer.next] delivers a snapshot, the token is
    cancelled before the continuation runs, and the continuation returns
    the snapshot; the call is not rejected. *)
Lemma woken_call_survives_cancellation :
  results [Call None; Next snap_a; Cancel; Resume 0]
  = Some [Some (Awaiting waiting_frame); None; None; Some (Returned snap_a)]
  ∧ results [Call None; Next snap_a; Cancel; Resume 0]
    ≠ Some [Some (Awaiting waiting_frame); None; None;
            Some (Thrown cancelled_error)].
Proof. split; [reflexivity | discriminate]. Qed.

(** * Further properties of the listener and the token *)

(** ** Waking a suspended call *)

Lemma notify_wakes st f x :
  onChange (listener st) = Some (deferred f) →
  heap (world st) !! deferred f = Some x →
  Deferred.promise x = Promise.pending →
  heap (world (notify st)) !! deferred f
  = Some {| Deferred._promise := Promise.fulfilled () |}.
Proof.
  intros Hslot Hx Hp. unfold notify. rewrite Hslot. simpl.
  rewrite list_lookup_alter_eq, Hx. simpl. f_equal.
  destruct x as [p]. simpl in Hp. subst p. reflexivity.
Qed.

Lemma notify_settles st d :
  onChange (listener st) = Some d →
  promise_at (world (notify st)) d ≠ Some Promise.pending.
Proof.
  intros Hslot. unfold notify, promise_at. rewrite Hslot. simpl.
  rewrite list_lookup_alter_eq.
  destruct (heap (world st) !! d) as [[[| v | e]] |]; simpl; discriminate.
Qed.

Lemma forEach_pending_before m w d :
  promise_at (JsMap.forEach invoke m w) d = Some Promise.pending →
  promise_at w d = Some Promise.pending.
Proof.
  unfold promise_at. rewrite forEach_invoke_heap.
  destruct (heap w !! d) as [x |] eqn:Hx.
  - destruct (Promise.settled (Deferred.promise x)) eqn:Hs.
    + rewrite (foldl_heap_effect_settled m _ d x Hx Hs). done.
    + intros _. simpl. destruct x as [[| v | e]]; simpl in *; done.
  - apply lookup_ge_None in Hx.
    rewrite (proj2 (lookup_ge_None _ _)); [done |].
    rewrite foldl_heap_effect_length. exact Hx.
Qed.

Lemma exec_pending_is_idle a c r c' :
  consistent c → pending_is_idle c →
  exec a c = Some (r, c') → pending_is_idle c'.
Proof.
  intros Hc Hidle. destruct a; simpl.
  - (* Call *)
    unfold waitForSnapshot.
    destruct (onChange (listener (state c))) eqn:Hslot.
    + intros [= _ <-]. intros f Hin. simpl in *. rewrite app_nil_r in Hin.
      apply Hidle. exact Hin.
    + destruct (loop_pass opts (state c)) as [r1 st1] eqn:Hl.
      intros [= _ <-]. intros f Hin _. simpl in *.
      destruct Hc as (Hfs & _).
      destruct (frames c) as [| f0 [| f1 fs]]; [| destruct Hfs; congruence | done].
      destruct r1 as [s | e | f1]; simpl in Hin; try (inversion Hin; fail).
      apply list_elem_of_singleton in Hin as ->.
      apply (loop_pass_awaiting _ _ _ _ Hl).
  - (* Resume *)
    destruct (frames c !! i) as [f |] eqn:Hi; [| done]. simpl.
    destruct (consistent_single c f i Hc Hi) as [Hfs ->].
    pose proof (consistent_slot c f Hc Hfs) as Hslot.
    unfold resume.
    destruct (heap (world (state c)) !! deferred f) as [d |]; [| done]. simpl.
    rewrite finally_blocks_legal by assumption.
    destruct (Deferred.promise d) as [| v | reason]; [done | |]; simpl.
    + destruct (loop_pass _ _) as [r1 st1] eqn:Hl. simpl.
      intros [= _ <-]. intros f' Hin _. simpl in *. rewrite Hfs in Hin.
      destruct r1 as [s | e | f1]; simpl in Hin; try (inversion Hin; fail).
      apply list_elem_of_singleton in Hin as ->.
      apply (loop_pass_awaiting _ _ _ _ Hl).
    + intros [= _ <-]. intros f' Hin. simpl in Hin. rewrite Hfs in Hin.
      inversion Hin.
  - (* Next *)
    intros [= _ <-]. intros f Hin Hp. simpl in *. exfalso.
    destruct (consistent_waiting c f Hc Hin) as [_ Hslot].
    unfold observer_next in Hp. revert Hp. apply notify_settles. exact Hslot.
  - (* ObserverError *)
    intros [= _ <-]. intros f Hin Hp. simpl in *. exfalso.
    destruct (consistent_waiting c f Hc Hin) as [_ Hslot].
    unfold observer_error in Hp. revert Hp. apply notify_settles. exact Hslot.
  - (* Complete *)
    intros [= _ <-]. intros f Hin Hp. simpl in *. exfalso.
    destruct (consistent_waiting c f Hc Hin) as [_ Hslot].
    unfold observer_complete in Hp. revert Hp. apply notify_settles.
    exact Hslot.
  - (* Clear *)
    intros [= _ <-]. intros f Hin Hp. simpl in *.
    destruct (Hidle f Hin Hp) as (_ & He & Hd). split; [reflexivity | done].
  - (* Cancel *)
    intros [= _ <-]. intros f Hin Hp. simpl in *.
    apply (Hidle f Hin). apply forEach_pending_before in Hp. exact Hp.
  - (* OnCancelled *)
    unfold CancellationToken.onCancelled.
    destruct (CancellationToken._cancelled (cancellationToken (state c)));
      intros [= _ <-]; intros f Hin Hp; simpl in *; apply (Hidle f Hin Hp).
  - (* Unregister *)
    case_decide; [| done]. intros [= _ <-]. intros f Hin Hp. simpl in *.
    apply (Hidle f Hin Hp).
Qed.

Lemma run_pending_is_idle tr : ∀ c rs c',
  consistent c → pending_is_idle c →
  run tr c = Some (rs, c') → pending_is_idle c'.
Proof.
  induction tr as [| a tr IH]; intros c rs c' Hc Hidle; simpl.
  - intros [= _ <-]. exact Hidle.
  - destruct (exec a c) as [[r c1] |] eqn:Ha; [| done]. simpl.
    destruct (run tr c1) as [[rs1 c2] |] eqn:Hr; [| done]. simpl.
    intros [= _ <-]. apply (IH c1 rs1 c2); [| | exact Hr].
    + eapply exec_consistent; eassumption.
    + eapply exec_pending_is_idle; eassumption.
Qed.

Lemma reachable_pending_is_idle c : reachable c → pending_is_idle c.
Proof.
  intros (tr & rs & Hrun).
  apply (run_pending_is_idle tr init rs c init_consistent); [| exact Hrun].
  intros f Hin. inversion Hin.
Qed.

Lemma run_two a b c r1 c1 r2 c2 :
  exec a c = Some (r1, c1) →
  exec b c1 = Some (r2, c2) →
  run [a; b] c = Some ([r1; r2], c2).
Proof. intros H1 H2. simpl. rewrite H1. simpl. rewrite H2. reflexivity. Qed.

(** The continuation of a suspended call whose pending promise an observer
    callback has just fulfilled: the [finally] blocks, then a pass of the
    loop. *)
Lemma resume_after_notify c f l' :
  consistent c →
  frames c = [f] →
  promise_at (world (state c)) (deferred f) = Some Promise.pending →
  onChange l' = Some (deferred f) →
  let st1 := notify (set_listener l' (state c)) in
  exec (Resume 0) {| state := st1; frames := frames c |}
  = Some (Some (loop_pass (options f) (finally_blocks f st1).2).1,
          {| state := (loop_pass (options f) (finally_blocks f st1).2).2;
             frames := suspended
                         (loop_pass (options f) (finally_blocks f st1).2).1 |})
  ∧ listener (finally_blocks f st1).2
    = {| snapshots := snapshots l'; error := error l';
         completed := completed l'; onChange := None |}.
Proof.
  intros Hc Hfs Hp Hslot st1. unfold promise_at in Hp.
  destruct (heap (world (state c)) !! deferred f) as [x |] eqn:Hx; [| done].
  injection Hp as Hp.
  assert (Hslot1 : onChange (listener st1) = Some (deferred f)).
  { unfold st1. rewrite notify_listener. exact Hslot. }
  assert (Hcell : heap (world st1) !! deferred f
                  = Some {| Deferred._promise := Promise.fulfilled () |}).
  { unfold st1. apply (notify_wakes _ f x); assumption. }
  split.
  - simpl. rewrite Hfs. simpl.
    rewrite (resume_fulfilled f st1 _ () Hslot1 Hcell eq_refl). simpl.
    destruct (loop_pass _ _) as [r st2]. reflexivity.
  - rewrite finally_blocks_legal by assumption. simpl.
    unfold st1. rewrite notify_listener. reflexivity.
Qed.

(** X1.  A call is suspended with its promise pending, and [observer.next]
    delivers a snapshot that matches the call's options: the continuation of
    the call returns that snapshot, and afterwards no call is suspended, the
    slot is empty and the buffer is empty. *)
Theorem matching_snapshot_wakes_call (c : Config) (f : frame) (s : Snapshot) :
  reachable c →
  f ∈ frames c →
  promise_at (world (state c)) (deferred f) = Some Promise.pending →
  matching (options f) s = true →
  ∃ c',
    run [Next s; Resume 0] c = Some ([None; Some (Returned s)], c')
    ∧ frames c' = []
    ∧ onChange (listener (state c')) = None
    ∧ idle_listener (listener (state c')).
Proof.
  intros Hr Hin Hp Hs. pose proof (reachable_consistent c Hr) as Hc.
  destruct (consistent_waiting c f Hc Hin) as [Hfs Hslot].
  destruct (reachable_pending_is_idle c Hr f Hin Hp) as (Hbuf & He & Hd).
  set (l' := {| snapshots := snapshots (listener (state c)) ++ [s];
                error := error (listener (state c));
                completed := completed (listener (state c));
                onChange := onChange (listener (state c)) |}).
  destruct (resume_after_notify c f l' Hc Hfs Hp Hslot) as [Hexec Hl].
  set (st1 := notify (set_listener l' (state c))) in *.
  assert (Hpass : loop_pass (options f) (finally_blocks f st1).2
                  = (Returned s, set_snapshots [] (finally_blocks f st1).2)).
  { apply loop_pass_scan_last; rewrite Hl; simpl; try done.
    rewrite Hbuf. simpl app. rewrite shift_loop_cons, Hs. reflexivity. }
  rewrite Hpass in Hexec.
  eexists. split.
  - apply (run_two (Next s) (Resume 0) c None
             {| state := st1; frames := frames c |} _ _ eq_refl Hexec).
  - simpl. rewrite Hl. simpl. rewrite He, Hd. done.
Qed.

Lemma matching_snapshot_wakes_call_witness :
  ∃ c', run [Next snap_a; Resume 0] waiting
        = Some ([None; Some (Returned snap_a)], c')
        ∧ frames c' = [].
Proof.
  destruct (matching_snapshot_wakes_call waiting waiting_frame snap_a)
    as (c' & H1 & H2 & _).
  - exists [Call None]. eexists. reflexivity.
  - left.
  - reflexivity.
  - reflexivity.
  - exists c'. done.
Defined.

Lemma loop_pass_suspends opts st :
  onChange (listener st) = None →
  error (listener st) = None →
  completed (listener st) = false →
  Forall (fun x => matching opts x = false) (snapshots (listener st)) →
  ∃ f st', loop_pass opts st = (Awaiting f, st').
Proof.
  intros Hslot He Hd Hall. unfold loop_pass, alloc,
    CancellationToken.registerDeferred, CancellationToken.onCancelled.
  rewrite Hslot, He, Hd, (shift_loop_no_match _ _ Hall). simpl.
  destruct (CancellationToken._cancelled (cancellationToken st)); eauto.
Qed.

(** X2.  A call is suspended with its promise pending, and [observer.next]
    delivers a snapshot that does not match the call's options: the
    continuation drops the snapshot and suspends the call again, with the
    same options, on a new [Deferred]; the buffer is empty again. *)
Theorem other_snapshot_suspends_again (c : Config) (f : frame) (s : Snapshot) :
  reachable c →
  f ∈ frames c →
  promise_at (world (state c)) (deferred f) = Some Promise.pending →
  matching (options f) s = false →
  ∃ f' c',
    run [Next s; Resume 0] c = Some ([None; Some (Awaiting f')], c')
    ∧ frames c' = [f']
    ∧ options f' = options f
    ∧ deferred f' = length (heap (world (state c)))
    ∧ deferred f' ≠ deferred f
    ∧ idle_listener (listener (state c')).
Proof.
  intros Hr Hin Hp Hs. pose proof (reachable_consistent c Hr) as Hc.
  destruct (consistent_waiting c f Hc Hin) as [Hfs Hslot].
  destruct (reachable_pending_is_idle c Hr f Hin Hp) as (Hbuf & He & Hd).
  set (l' := {| snapshots := snapshots (listener (state c)) ++ [s];
                error := error (listener (state c));
                completed := completed (listener (state c));
                onChange := onChange (listener (state c)) |}).
  destruct (resume_after_notify c f l' Hc Hfs Hp Hslot) as [Hexec Hl].
  set (st1 := notify (set_listener l' (state c))) in *.
  destruct (loop_pass_suspends (options f) (finally_blocks f st1).2)
    as (f' & st2 & Hpass).
  { rewrite Hl. reflexivity. }
  { rewrite Hl. exact He. }
  { rewrite Hl. exact Hd. }
  { rewrite Hl. simpl. rewrite Hbuf. repeat constructor. exact Hs. }
  destruct (loop_pass_awaiting _ _ _ _ Hpass) as (Hidle & Hopts & Hdef & _).
  assert (Hlen : length (heap (world (finally_blocks f st1).2))
                 = length (heap (world (state c)))).
  { rewrite finally_blocks_legal
      by (unfold st1; rewrite notify_listener; exact Hslot).
    unfold st1, notify. simpl. rewrite Hslot. simpl. apply length_alter. }
  rewrite Hpass in Hexec.
  exists f'. eexists. split.
  - apply (run_two (Next s) (Resume 0) c None
             {| state := st1; frames := frames c |} _ _ eq_refl Hexec).
  - simpl. split; [reflexivity |]. split; [exact Hopts |].
    rewrite Hdef, Hlen. split; [reflexivity |]. split; [| exact Hidle].
    destruct Hc as (Hw & _). rewrite Hfs in Hw. destruct Hw as (_ & Hlt & _).
    lia.
Qed.

Lemma other_snapshot_suspends_again_witness :
  ∃ f' c', run [Next snap_b; Resume 0]
             (default init (after [Call no_pending_writes]))
           = Some ([None; Some (Awaiting f')], c')
           ∧ deferred f' = 1.
Proof.
  destruct (other_snapshot_suspends_again
              (default init (after [Call no_pending_writes]))
              {| options := no_pending_writes; deferred := 0;
                 unregisterDeferred := DeleteCallback 0 |} snap_b)
    as (f' & c' & H1 & _ & _ & H2 & _).
  - exists [Call no_pending_writes]. eexists. reflexivity.
  - left.
  - reflexivity.
  - reflexivity.
  - exists f', c'. done.
Defined.

(** X3.  A call is suspended with its promise pending.  When
    [observer.error] is called, the continuation of the call throws the
    error; when [observer.complete] is called, it throws "listener is
    completed".  In both cases no call is suspended afterwards and the slot
    is empty. *)
Theorem terminal_signal_wakes_call (c : Config) (f : frame) :
  reachable c →
  f ∈ frames c →
  promise_at (world (state c)) (deferred f) = Some Promise.pending →
  (∀ e, ∃ c',
     run [ObserverError e; Resume 0] c
     = Some ([None; Some (Thrown (Firestore e))], c')
     ∧ frames c' = [] ∧ onChange (listener (state c')) = None)
  ∧ ∃ c',
      run [Complete; Resume 0] c
      = Some ([None; Some (Thrown (Error "listener is completed"))], c')
      ∧ frames c' = [] ∧ onChange (listener (state c')) = None.
Proof.
  intros Hr Hin Hp. pose proof (reachable_consistent c Hr) as Hc.
  destruct (consistent_waiting c f Hc Hin) as [Hfs Hslot].
  destruct (reachable_pending_is_idle c Hr f Hin Hp) as (Hbuf & He & Hd).
  split.
  - intros e.
    set (l' := {| snapshots := snapshots (listener (state c));
                  error := Some e;
                  completed := completed (listener (state c));
                  onChange := onChange (listener (state c)) |}).
    destruct (resume_after_notify c f l' Hc Hfs Hp Hslot) as [Hexec Hl].
    set (st1 := notify (set_listener l' (state c))) in *.
    rewrite (loop_pass_error_first (options f) (finally_blocks f st1).2 e)
      in Hexec by (rewrite Hl; reflexivity).
    eexists. split.
    + apply (run_two (ObserverError e) (Resume 0) c None
               {| state := st1; frames := frames c |} _ _ eq_refl Hexec).
    + simpl. rewrite Hl. done.
  - set (l' := {| snapshots := snapshots (listener (state c));
                  error := error (listener (state c));
                  completed := true;
                  onChange := onChange (listener (state c)) |}).
    destruct (resume_after_notify c f l' Hc Hfs Hp Hslot) as [Hexec Hl].
    set (st1 := notify (set_listener l' (state c))) in *.
    rewrite (loop_pass_completed_second (options f) (finally_blocks f st1).2)
      in Hexec by (rewrite Hl; simpl; done).
    eexists. split.
    + apply (run_two Complete (Resume 0) c None
               {| state := st1; frames := frames c |} _ _ eq_refl Hexec).
    + simpl. rewrite Hl. done.
Qed.

Lemma terminal_signal_wakes_call_witness :
  ∃ c', run [ObserverError err_a; Resume 0] waiting
        = Some ([None; Some (Thrown (Firestore err_a))], c').
Proof.
  destruct (terminal_signal_wakes_call waiting waiting_frame) as [H _].
  - exists [Call None]. eexists. reflexivity.
  - left.
  - reflexivity.
  - destruct (H err_a) as (c' & H1 & _). exists c'. exact H1.
Defined.

(** ** Completion is permanent *)

Lemma exec_completed a c r c' :
  exec a c = Some (r, c') →
  completed (listener (state c'))
  = match a with
    | Complete => true
    | _ => completed (listener (state c))
    end.
Proof.
  destruct a; simpl.
  - pose proof (waitForSnapshot_keeps_flags opts (state c)) as [_ H].
    destruct (waitForSnapshot opts (state c)) as [r1 st1].
    intros [= <- <-]. exact H.
  - destruct (frames c !! i) as [f |]; [| done]. simpl.
    destruct (resume f (state c)) as [[r1 st1] |] eqn:Hr; [| done].
    simpl. intros [= <- <-]. simpl. apply (resume_keeps_flags _ _ _ _ Hr).
  - intros [= <- <-]. simpl. unfold observer_next.
    rewrite notify_listener. reflexivity.
  - intros [= <- <-]. simpl. unfold observer_error.
    rewrite notify_listener. reflexivity.
  - intros [= <- <-]. simpl. unfold observer_complete.
    rewrite notify_listener. reflexivity.
  - intros [= <- <-]. reflexivity.
  - intros [= <- <-]. reflexivity.
  - destruct (CancellationToken.onCancelled _ _ _) as [[u tok] w].
    intros [= <- <-]. reflexivity.
  - case_decide; [| done]. intros [= <- <-]. reflexivity.
Qed.

(** X4.  Once [observer.complete()] has been called, the listener stays
    completed whatever happens next, [clear()] included; a later call that
    finds no call suspended and no error recorded fails with "listener is
    completed" and changes nothing. *)
Theorem completion_is_permanent (tr : list action) (c : Config)
    (rs : list (option result)) (c' : Config) :
  run (Complete :: tr) c = Some (rs, c') →
  completed (listener (state c')) = true
  ∧ ∀ opts,
      onChange (listener (state c')) = None →
      error (listener (state c')) = None →
      waitForSnapshot opts (state c')
      = (Thrown (Error "listener is completed"), state c').
Proof.
  intros Hrun.
  assert (Hperm : ∀ tr c rs c',
            run tr c = Some (rs, c') →
            completed (listener (state c)) = true →
            completed (listener (state c')) = true).
  { clear. induction tr as [| a tr IH]; intros c rs c'; simpl.
    - intros [= _ <-]. done.
    - destruct (exec a c) as [[r c1] |] eqn:Ha; [| done]. simpl.
      destruct (run tr c1) as [[rs1 c2] |] eqn:Hr; [| done]. simpl.
      intros [= _ <-] Hd. apply (IH c1 rs1 c2 Hr).
      rewrite (exec_completed _ _ _ _ Ha). destruct a; done. }
  simpl in Hrun.
  destruct (run tr _) as [[rs1 c1] |] eqn:Hr; [| done].
  injection Hrun as _ <-.
  assert (Hd : completed (listener (state c1)) = true).
  { apply (Hperm _ _ _ _ Hr). simpl. unfold observer_complete.
    rewrite notify_listener. reflexivity. }
  split; [exact Hd |]. intros opts Hslot He.
  rewrite waitForSnapshot_loop_pass by assumption.
  apply loop_pass_completed_second; assumption.
Qed.

Lemma completion_is_permanent_witness :
  completed (listener (state (default init
                                (after [Complete; Next snap_a; Clear]))))
  = true.
Proof.
  apply (completion_is_permanent [Next snap_a; Clear] init
           [None; None; None]
           (default init (after [Complete; Next snap_a; Clear])) eq_refl).
Defined.

(** ** The state of the token *)

Lemma loop_pass_token_flags opts st :
  token_flags (cancellationToken (loop_pass opts st).2)
  = token_flags (cancellationToken st).
Proof.
  unfold loop_pass, alloc, CancellationToken.registerDeferred,
    CancellationToken.onCancelled.
  destruct (onChange (listener st)); [done |].
  destruct (error (listener st)); [done |].
  destruct (completed (listener st)); [done |].
  destruct (shift_loop opts (snapshots (listener st))) as [[s |] rest];
    [done |].
  simpl. destruct (CancellationToken._cancelled (cancellationToken st)) eqn:Hc;
    unfold token_flags; simpl; rewrite ?Hc; done.
Qed.

Lemma finally_blocks_token_flags f st :
  token_flags (cancellationToken (finally_blocks f st).2)
  = token_flags (cancellationToken st).
Proof.
  unfold finally_blocks. case_decide; destruct (unregisterDeferred f); done.
Qed.

Lemma exec_token_flags a c r c' :
  exec a c = Some (r, c') →
  token_flags (cancellationToken (state c'))
  = match a with
    | Cancel =>
        (true,
         Deferred.resolve ()
           (CancellationToken._onCancelledDeferred (cancellationToken (state c))))
    | _ => token_flags (cancellationToken (state c))
    end.
Proof.
  destruct a; simpl.
  - unfold waitForSnapshot. destruct (onChange (listener (state c))).
    + intros [= _ <-]. reflexivity.
    + pose proof (loop_pass_token_flags opts (state c)) as H.
      destruct (loop_pass opts (state c)) as [r1 st1].
      intros [= _ <-]. exact H.
  - destruct (frames c !! i) as [f |]; [| done]. simpl. unfold resume.
    destruct (heap (world (state c)) !! deferred f) as [d |]; [| done].
    simpl. pose proof (finally_blocks_token_flags f (state c)) as Hf.
    destruct (Deferred.promise d) as [| v | reason]; [done | |];
      destruct (finally_blocks f (state c)) as [[e |] st1]; simpl in *.
    + intros [= _ <-]. exact Hf.
    + pose proof (loop_pass_token_flags (options f) st1) as Hl.
      destruct (loop_pass (options f) st1) as [r1 st2].
      intros [= _ <-]. simpl in *. congruence.
    + intros [= _ <-]. exact Hf.
    + intros [= _ <-]. exact Hf.
  - intros [= _ <-]. simpl. unfold observer_next. rewrite notify_token. done.
  - intros [= _ <-]. simpl. unfold observer_error. rewrite notify_token. done.
  - intros [= _ <-]. simpl. unfold observer_complete. rewrite notify_token.
    done.
  - intros [= _ <-]. reflexivity.
  - intros [= _ <-]. reflexivity.
  - unfold CancellationToken.onCancelled.
    destruct (CancellationToken._cancelled (cancellationToken (state c)))
      eqn:Hc; intros [= _ <-]; unfold token_flags; simpl; rewrite ?Hc; done.
  - case_decide; [| done]. intros [= _ <-]. reflexivity.
Qed.

Lemma run_token_flags tr : ∀ c rs c',
  run tr c = Some (rs, c') →
  CancellationToken.promise (cancellationToken (state c))
  = (if CancellationToken.cancelled (cancellationToken (state c))
     then Promise.fulfilled () else Promise.pending) →
  CancellationToken.cancelled (cancellationToken (state c'))
  = CancellationToken.cancelled (cancellationToken (state c))
    || existsb is_cancel tr
  ∧ CancellationToken.promise (cancellationToken (state c'))
    = (if CancellationToken.cancelled (cancellationToken (state c'))
       then Promise.fulfilled () else Promise.pending).
Proof.
  induction tr as [| a tr IH]; intros c rs c'; simpl.
  - intros [= _ <-] Hp. rewrite orb_false_r. done.
  - destruct (exec a c) as [[r c1] |] eqn:Ha; [| done]. simpl.
    destruct (run tr c1) as [[rs1 c2] |] eqn:Hr; [| done]. simpl.
    intros [= _ <-] Hp. pose proof (exec_token_flags _ _ _ _ Ha) as Hflags.
    unfold token_flags, CancellationToken.cancelled,
      CancellationToken.promise, Deferred.promise in *.
    destruct (is_cancel a) eqn:Hcancel.
    + destruct a; try discriminate. injection Hflags as Hc1 Hd1.
      destruct (IH c1 rs1 c2 Hr) as [Hc2 Hp2].
      { rewrite Hc1, Hd1. simpl. rewrite Hp.
        destruct (CancellationToken._cancelled _); reflexivity. }
      split; [| exact Hp2]. rewrite Hc2, Hc1.
      rewrite orb_true_r. reflexivity.
    + assert (Hsame : (CancellationToken._cancelled (cancellationToken (state c1)),
                       CancellationToken._onCancelledDeferred
                         (cancellationToken (state c1)))
                      = (CancellationToken._cancelled (cancellationToken (state c)),
                         CancellationToken._onCancelledDeferred
                           (cancellationToken (state c)))).
      { destruct a; try done. }
      injection Hsame as Hc1 Hd1.
      destruct (IH c1 rs1 c2 Hr) as [Hc2 Hp2].
      { rewrite Hc1, Hd1. exact Hp. }
      split; [| exact Hp2]. rewrite Hc2, Hc1. reflexivity.
Qed.

(** X5.  The token of a listener is cancelled exactly when [cancel()] has
    been called; its promise is fulfilled exactly then and is pending
    otherwise, and [throwIfCancelled()] throws the
    [CancellationTokenCancelledError] exactly then. *)
Theorem cancelled_iff_cancel_called (tr : list action)
    (rs : list (option result)) (c : Config) :
  run tr init = Some (rs, c) →
  let tok := cancellationToken (state c) in
  CancellationToken.cancelled tok = existsb is_cancel tr
  ∧ CancellationToken.promise tok
    = (if existsb is_cancel tr
       then Promise.fulfilled () else Promise.pending)
  ∧ CancellationToken.throwIfCancelled tok
    = (if existsb is_cancel tr then Some cancelled_error else None).
Proof.
  intros Hrun tok.
  destruct (run_token_flags tr init rs c Hrun eq_refl) as [Hc Hp].
  simpl in Hc. fold tok in Hc, Hp. split; [exact Hc |].
  split; [rewrite Hp, Hc; reflexivity |].
  unfold CancellationToken.throwIfCancelled.
  unfold CancellationToken.cancelled in Hc. rewrite Hc. reflexivity.
Qed.

Lemma cancelled_iff_cancel_called_witness :
  CancellationToken.throwIfCancelled
    (cancellationToken
       (state (default init (after [Call None; Cancel; Next snap_a]))))
  = Some cancelled_error.
Proof.
  apply (cancelled_iff_cancel_called [Call None; Cancel; Next snap_a]
           [Some (Awaiting waiting_frame); None; None]
           (default init (after [Call None; Cancel; Next snap_a])) eq_refl).
Defined.

(** ** Registering and unregistering cancellation callbacks *)

Lemma externals_app m1 m2 : externals (m1 ++ m2) = externals m1 ++ externals m2.
Proof.
  induction m1 as [| [k [d msg | tag]] m1 IH]; simpl; [done | done |].
  rewrite IH. reflexivity.
Qed.

(** X6.  On a token that is not cancelled, registering a callback and then
    calling the function that [onCancelled] returned gives back the token as
    it was: the callback is never invoked, neither at registration nor by a
    later [cancel()]. *)
Theorem register_then_unregister (cb : callback) (tok : CancellationToken.t)
    (w : World) :
  CancellationToken.cancelled tok = false →
  Forall (fun k => k < symbols w)
    (JsMap.keys (CancellationToken._onCancelledCallbacks tok)) →
  let r := CancellationToken.onCancelled cb tok w in
  CancellationToken.run_unregister r.1.1 r.1.2 = tok
  ∧ heap r.2 = heap w ∧ calls r.2 = calls w
  ∧ CancellationTokenSource.cancel
      (CancellationToken.run_unregister r.1.1 r.1.2) r.2
    = CancellationTokenSource.cancel tok r.2.
Proof.
  intros Hc Hfresh r.
  assert (Hback : CancellationToken.run_unregister r.1.1 r.1.2 = tok).
  { subst r. unfold CancellationToken.onCancelled,
      CancellationToken.cancelled in *. rewrite Hc. simpl.
    unfold CancellationToken.set_callbacks. simpl.
    rewrite set_fresh, delete_app, delete_fresh by assumption. simpl.
    rewrite decide_True by reflexivity. rewrite app_nil_r.
    destruct tok; reflexivity. }
  split; [exact Hback |]. rewrite Hback.
  subst r. unfold CancellationToken.onCancelled,
    CancellationToken.cancelled in *. rewrite Hc. done.
Qed.

Lemma register_then_unregister_witness :
  CancellationToken.run_unregister
    (CancellationToken.onCancelled (External 7) CancellationTokenSource.new
       (world (state init))).1.1
    (CancellationToken.onCancelled (External 7) CancellationTokenSource.new
       (world (state init))).1.2
  = CancellationTokenSource.new.
Proof.
  apply (register_then_unregister (External 7) CancellationTokenSource.new
           (world (state init)) eq_refl).
  constructor.
Defined.

Lemma onCancelled_fresh cb tok w :
  CancellationToken.cancelled tok = false →
  Forall (fun k => k < symbols w)
    (JsMap.keys (CancellationToken._onCancelledCallbacks tok)) →
  CancellationToken.onCancelled cb tok w
  = (DeleteCallback (symbols w),
     CancellationToken.set_callbacks
       (CancellationToken._onCancelledCallbacks tok ++ [(symbols w, cb)]) tok,
     {| heap := heap w; calls := calls w; symbols := S (symbols w) |}).
Proof.
  intros Hc Hfresh. unfold CancellationToken.onCancelled,
    CancellationToken.cancelled in *.
  rewrite Hc, set_fresh by assumption. reflexivity.
Qed.

Lemma onCancelled_all_cons cb rest tok w :
  onCancelled_all (cb :: rest) tok w
  = (let o := CancellationToken.onCancelled cb tok w in
     let r := onCancelled_all rest o.1.2 o.2 in
     (o.1.1 :: r.1.1, r.1.2, r.2)).
Proof.
  simpl. destruct (CancellationToken.onCancelled cb tok w) as [[u tok1] w1].
  simpl. destruct (onCancelled_all rest tok1 w1) as [[us tok2] w2].
  reflexivity.
Qed.

Lemma onCancelled_all_externals tags : ∀ tok w,
  CancellationToken.cancelled tok = false →
  Forall (fun k => k < symbols w)
    (JsMap.keys (CancellationToken._onCancelledCallbacks tok)) →
  let r := onCancelled_all (External <$> tags) tok w in
  r.1.1 = DeleteCallback <$> seq (symbols w) (length tags)
  ∧ CancellationToken.cancelled r.1.2 = false
  ∧ externals (CancellationToken._onCancelledCallbacks r.1.2)
    = externals (CancellationToken._onCancelledCallbacks tok) ++ tags
  ∧ heap r.2 = heap w ∧ calls r.2 = calls w
  ∧ symbols r.2 = symbols w + length tags.
Proof.
  induction tags as [| tag tags IH]; intros tok w Hc Hfresh r; subst r.
  - simpl. rewrite app_nil_r, Nat.add_0_r. done.
  - rewrite fmap_cons, onCancelled_all_cons.
    rewrite (onCancelled_fresh _ _ _ Hc Hfresh). cbn [fst snd].
    set (tok1 := CancellationToken.set_callbacks _ tok).
    set (w1 := {| heap := heap w; calls := calls w; symbols := S (symbols w) |}).
    destruct (IH tok1 w1) as (Hus & Hc' & Hext & Hheap & Hcalls & Hsym).
    { exact Hc. }
    { unfold tok1, w1, JsMap.keys. simpl. rewrite fmap_app.
      apply Forall_app. split.
      - eapply Forall_impl; [exact Hfresh |]. simpl. intros; lia.
      - repeat constructor. }
    rewrite Hus, Hext, Hheap, Hcalls, Hsym.
    unfold tok1. simpl. rewrite externals_app. simpl.
    rewrite <- app_assoc. simpl. repeat split; [exact Hc' | lia].
Qed.

(** X7.  Callbacks registered one after the other on a token that is not
    cancelled get distinct symbols, are not invoked at registration, and are
    all invoked by [cancel()], each once, in the order of registration and
    after the callbacks that were registered before them. *)
Theorem callbacks_fire_in_registration_order (tags : list nat)
    (tok : CancellationToken.t) (w : World) :
  CancellationToken.cancelled tok = false →
  Forall (fun k => k < symbols w)
    (JsMap.keys (CancellationToken._onCancelledCallbacks tok)) →
  let r := onCancelled_all (External <$> tags) tok w in
  r.1.1 = DeleteCallback <$> seq (symbols w) (length tags)
  ∧ calls r.2 = calls w
  ∧ calls (CancellationTokenSource.cancel r.1.2 r.2).2
    = calls w
      ++ externals (CancellationToken._onCancelledCallbacks tok) ++ tags.
Proof.
  intros Hc Hfresh r.
  destruct (onCancelled_all_externals tags tok w Hc Hfresh)
    as (Hus & _ & Hext & _ & Hcalls & _).
  fold r in Hus, Hext, Hcalls.
  split; [exact Hus |]. split; [exact Hcalls |].
  rewrite cancel_world, forEach_invoke_calls, Hcalls, Hext. reflexivity.
Qed.

Lemma callbacks_fire_in_registration_order_witness :
  calls
    (CancellationTokenSource.cancel
       (onCancelled_all (External <$> [3; 1; 2]) CancellationTokenSource.new
          (world (state init))).1.2
       (onCancelled_all (External <$> [3; 1; 2]) CancellationTokenSource.new
          (world (state init))).2).2
  = [3; 1; 2].
Proof.
  apply (callbacks_fire_in_registration_order [3; 1; 2]
           CancellationTokenSource.new (world (state init)) eq_refl).
  constructor.
Defined.

(** ** [registerDeferred] with a message *)

Lemma foldl_heap_effect_other (m : JsMap.t callback) : ∀ h d,
  (∀ k msg, ¬ (k, RejectDeferred d msg) ∈ m) →
  foldl (fun h kv => heap_effect kv.2 h) h m !! d = h !! d.
Proof.
  induction m as [| [k cb] m IH]; intros h d Hno; simpl; [reflexivity |].
  rewrite IH.
  - destruct cb as [d' msg | tag]; unfold heap_effect; simpl; [| reflexivity].
    apply list_lookup_alter_ne. intros ->. apply (Hno k msg). left.
  - intros k' msg Hin. apply (Hno k' msg). right. exact Hin.
Qed.

(** X8.  [registerDeferred(deferred, message)] for a pending [Deferred] that
    no registered callback rejects.  On a cancelled token the [Deferred] is
    rejected at once; otherwise it stays pending and is rejected by the next
    [cancel()], unless it has been unregistered, in which case [cancel()]
    leaves it pending.  The rejection is a
    [CancellationTokenCancelledError] with the given message, or with
    "operation cancelled" when none is given. *)
Theorem registerDeferred_rejects_on_cancel (d : nat) (message : option string)
    (tok : CancellationToken.t) (w : World) :
  promise_at w d = Some Promise.pending →
  Forall (fun k => k < symbols w)
    (JsMap.keys (CancellationToken._onCancelledCallbacks tok)) →
  (∀ k msg,
     ¬ (k, RejectDeferred d msg) ∈ CancellationToken._onCancelledCallbacks tok) →
  let r := CancellationToken.registerDeferred d message tok w in
  let rejection :=
    Promise.rejected
      (CancellationTokenCancelledError
         (default "operation cancelled" message)) in
  if CancellationToken.cancelled tok then
    r.1.1 = Noop ∧ promise_at r.2 d = Some rejection
  else
    promise_at r.2 d = Some Promise.pending
    ∧ promise_at (CancellationTokenSource.cancel r.1.2 r.2).2 d
      = Some rejection
    ∧ promise_at
        (CancellationTokenSource.cancel
           (CancellationToken.run_unregister r.1.1 r.1.2) r.2).2 d
      = Some Promise.pending.
Proof.
  intros Hp Hfresh Hno r rejection. subst r rejection.
  unfold CancellationToken.registerDeferred.
  assert (Hcell : ∃ x, heap w !! d = Some x
                       ∧ Deferred.promise x = Promise.pending).
  { unfold promise_at in Hp. destruct (heap w !! d) as [x |]; [| done].
    injection Hp as Hp. eauto. }
  destruct Hcell as (x & Hx & Hpx).
  destruct (CancellationToken.cancelled tok) eqn:Hc.
  - unfold CancellationToken.onCancelled.
    unfold CancellationToken.cancelled in Hc. rewrite Hc. cbn [fst snd].
    split; [reflexivity |]. unfold promise_at. simpl.
    rewrite list_lookup_alter_eq, Hx. simpl.
    destruct x as [p]. simpl in Hpx. subst p. reflexivity.
  - rewrite (onCancelled_fresh _ _ _ Hc Hfresh). cbn [fst snd].
    set (w1 := {| heap := heap w; calls := calls w; symbols := S (symbols w) |}).
    assert (Hm : heap (JsMap.forEach invoke
                         (CancellationToken._onCancelledCallbacks tok) w1) !! d
                 = Some x).
    { rewrite forEach_invoke_heap, foldl_heap_effect_other by assumption.
      exact Hx. }
    split; [exact Hp |]. split.
    + rewrite cancel_world. simpl. rewrite forEach_app.
      unfold promise_at, JsMap.forEach at 1. simpl.
      rewrite list_lookup_alter_eq, Hm. simpl.
      destruct x as [p]. simpl in Hpx. subst p. reflexivity.
    + rewrite cancel_world. simpl. rewrite delete_app, delete_fresh by assumption.
      simpl. rewrite decide_True by reflexivity. rewrite app_nil_r.
      unfold promise_at. rewrite Hm. simpl. rewrite Hpx. reflexivity.
Qed.

Lemma registerDeferred_rejects_on_cancel_witness :
  promise_at
    (CancellationTokenSource.cancel
       (CancellationToken.registerDeferred 0 (Some "too late")
          CancellationTokenSource.new
          {| heap := [Deferred.new]; calls := []; symbols := 0 |}).1.2
       (CancellationToken.registerDeferred 0 (Some "too late")
          CancellationTokenSource.new
          {| heap := [Deferred.new]; calls := []; symbols := 0 |}).2).2 0
  = Some (Promise.rejected (CancellationTokenCancelledError "too late")).
Proof.
  pose proof (registerDeferred_rejects_on_cancel 0 (Some "too late")
                CancellationTokenSource.new
                {| heap := [Deferred.new]; calls := []; symbols := 0 |}
                eq_refl) as H.
  simpl in H. apply H.
  - constructor.
  - intros k msg Hin. inversion Hin.
Defined.

(** ** A call on a cancelled token *)

(** X9.  [waitForSnapshot] does not look at the token before it scans the
    buffer.  Called when the token is already cancelled, with no buffered
    snapshot that matches, it still empties the buffer and suspends;
    nothing is registered on the token, the promise it awaits is already
    rejected, and its continuation throws the
    [CancellationTokenCancelledError] and leaves the slot empty. *)
Theorem call_on_cancelled_token (st : State)
    (opts : option WaitForSnapshotOptions.t) :
  onChange (listener st) = None →
  error (listener st) = None →
  completed (listener st) = false →
  CancellationToken.cancelled (cancellationToken st) = true →
  Forall (fun x => matching opts x = false) (snapshots (listener st)) →
  ∃ f st1 st2,
    waitForSnapshot opts st = (Awaiting f, st1)
    ∧ unregisterDeferred f = Noop
    ∧ cancellationToken st1 = cancellationToken st
    ∧ snapshots (listener st1) = []
    ∧ resume f st1 = Some (Thrown cancelled_error, st2)
    ∧ onChange (listener st2) = None
    ∧ cancellationToken st2 = cancellationToken st.
Proof.
  intros Hslot He Hd Hc Hall.
  rewrite waitForSnapshot_loop_pass by assumption.
  unfold loop_pass, alloc, CancellationToken.registerDeferred,
    CancellationToken.onCancelled.
  unfold CancellationToken.cancelled in Hc.
  rewrite Hslot, He, Hd, (shift_loop_no_match _ _ Hall), Hc. simpl.
  eexists. eexists. eexists. split; [reflexivity |].
  split; [reflexivity |]. split; [reflexivity |]. split; [reflexivity |].
  split.
  - eapply resume_rejected.
    + reflexivity.
    + simpl. rewrite list_lookup_alter_eq.
      rewrite lookup_app_r by lia. rewrite Nat.sub_diag. reflexivity.
    + reflexivity.
  - rewrite finally_blocks_legal by reflexivity. done.
Qed.

Lemma call_on_cancelled_token_witness :
  ∃ f st1 st2,
    waitForSnapshot None
      (state (default init (after [Cancel]))) = (Awaiting f, st1)
    ∧ resume f st1 = Some (Thrown cancelled_error, st2).
Proof.
  destruct (call_on_cancelled_token (state (default init (after [Cancel])))
              None eq_refl eq_refl eq_refl eq_refl)
    as (f & st1 & st2 & H1 & _ & _ & _ & H2 & _).
  - constructor.
  - exists f, st1, st2. done.
Defined.

(** ** No stale registration *)

(** X10.  Whatever the sequence of actions on a new listener, at most one
    call is suspended; the symbols of the callback map have been created;
    a callback of the token that rejects a [Deferred] is the one that the
    suspended call registered, with the default message, for the
    [Deferred] that the [onChange] slot resolves; and with no call
    suspended the slot is empty and the token holds caller-supplied
    callbacks only. *)
Theorem no_stale_registration (c : Config) :
  reachable c →
  (length (frames c) ≤ 1)%nat
  ∧ (frames c = [] → onChange (listener (state c)) = None)
  ∧ Forall (fun k => k < symbols (world (state c)))
      (JsMap.keys
         (CancellationToken._onCancelledCallbacks (cancellationToken (state c))))
  ∧ ∀ k d msg,
      (k, RejectDeferred d msg)
      ∈ CancellationToken._onCancelledCallbacks (cancellationToken (state c)) →
      msg = None
      ∧ onChange (listener (state c)) = Some d
      ∧ ∃ f, frames c = [f] ∧ deferred f = d
             ∧ unregisterDeferred f = DeleteCallback k.
Proof.
  intros Hr. pose proof (reachable_consistent c Hr) as Hc.
  pose proof Hc as (Hfs & Hkeys & Hown & _).
  split; [| split; [| split]].
  - destruct (frames c) as [| f [| f' fs]]; simpl; [lia | lia | done].
  - intros Hnil. rewrite Hnil in Hfs. exact Hfs.
  - exact Hkeys.
  - intros k d msg Hin. destruct (Hown k d msg Hin) as (-> & f & Hf & Hd & Hu).
    split; [reflexivity |]. split; [| eauto].
    rewrite (consistent_slot c f Hc Hf), Hd. reflexivity.
Qed.

Lemma no_stale_registration_witness :
  (length (frames (default init (after [Call None; Call None; Cancel])))
   ≤ 1)%nat.
Proof.
  apply (no_stale_registration
           (default init (after [Call None; Call None; Cancel]))).
  exists [Call None; Call None; Cancel]. eexists. reflexivity.
Defined.

(** * Properties of the rest of [util.ts] *)

(** ** Hosts *)

(** X11.  [hostNameFromHost], [displayLabelFromHost] and
    [displayValueFromHost] are defined on the four hosts of [FirestoreHost],
    where the display value is the label followed by the host name in
    parentheses; for every other string each of them throws
    [UnknownFirestoreHostError] with the message "unknown host: " and the
    string.  Different hosts have different host names. *)
Theorem host_functions (host : string) :
  (host ∈ known_hosts →
   ∃ label name,
     Util.displayLabelFromHost host = inr label
     ∧ Util.hostNameFromHost host = inr name
     ∧ Util.displayValueFromHost host = inr (label +:+ " (" +:+ name +:+ ")"))
  ∧ (host ∉ known_hosts →
     Util.displayLabelFromHost host = inl (Util.UnknownFirestoreHostError host)
     ∧ Util.hostNameFromHost host = inl (Util.UnknownFirestoreHostError host)
     ∧ Util.displayValueFromHost host
       = inl (Util.UnknownFirestoreHostError host))
  ∧ (∀ other name,
       Util.hostNameFromHost host = inr name →
       Util.hostNameFromHost other = inr name →
       other = host).
Proof.
  split; [| split].
  - unfold known_hosts. rewrite !elem_of_cons, elem_of_nil.
    intros [-> | [-> | [-> | [-> | []]]]]; eexists; eexists;
      repeat split; reflexivity.
  - unfold known_hosts. rewrite !elem_of_cons, elem_of_nil. intros Hno.
    unfold Util.displayValueFromHost, Util.displayLabelFromHost,
      Util.hostNameFromHost.
    repeat case_decide; try (exfalso; apply Hno; tauto); done.
  - intros other name. unfold Util.hostNameFromHost.
    repeat case_decide; subst; intros [= <-]; intros [=]; done.
Qed.

Lemma host_functions_witness :
  Util.displayValueFromHost "emulator" = inr "Emulator (127.0.0.1)"
  ∧ Util.displayValueFromHost "production"
    = inl (Util.UnknownFirestoreHostError "production").
Proof.
  split.
  - destruct (proj1 (host_functions "emulator")) as (label & name & H1 & H2 & H3).
    + unfold known_hosts. set_solver.
    + injection H1 as <-. injection H2 as <-. exact H3.
  - apply (proj1 (proj2 (host_functions "production"))).
    unfold known_hosts. rewrite !elem_of_cons, elem_of_nil.
    intros [H | [H | [H | [H | []]]]]; discriminate.
Defined.

(** ** Placeholder values *)

Lemma startsWith_spec searchString : ∀ value,
  Util.startsWith value searchString = true
  ↔ ∃ rest, value = searchString +:+ rest.
Proof.
  induction searchString as [| c s IH]; intros value; simpl.
  - split; [intros _; exists value; reflexivity | done].
  - destruct value as [| d v]; simpl.
    + split; [done | intros [rest [=]]].
    + case_decide as Hcd.
      * subst d. rewrite IH. split.
        -- intros [rest ->]. eauto.
        -- intros [rest [= ->]]. eauto.
      * split; [done | intros [rest [= -> _]]; done].
Qed.

(** X12.  [isPlaceholderValue] holds exactly of the strings that begin with
    "REPLACE_WITH_YOUR_". *)
Theorem isPlaceholderValue_iff_prefix (value : string) :
  Util.isPlaceholderValue value = true
  ↔ ∃ rest, value = "REPLACE_WITH_YOUR_" +:+ rest.
Proof. apply startsWith_spec. Qed.

(** ** Writes in batches *)

Lemma all_writes_cons {T W Closure : Type} (step : Closure → T → Closure * W)
    item rest env :
  all_writes step (item :: rest) env
  = ((step env item).2 :: (all_writes step rest (step env item).1).1,
     (all_writes step rest (step env item).1).2).
Proof.
  simpl. destruct (all_writes step rest (step env item).1). reflexivity.
Qed.

Lemma all_writes_length {T W Closure : Type} (step : Closure → T → Closure * W)
    items : ∀ env, length (all_writes step items env).1 = length items.
Proof.
  induction items as [| item rest IH]; intros env; [reflexivity |].
  rewrite all_writes_cons. simpl. rewrite IH. reflexivity.
Qed.

Section write_batches.
Context {T W Closure : Type}.
Variable callback : Closure → list W → T → Closure * list W.
Variable step : Closure → T → Closure * W.
Hypothesis callback_appends : ∀ env batch item,
  callback env batch item = ((step env item).1, batch ++ [(step env item).2]).

Implicit Types s : @WriteBatches.locals (list W) Closure.

Lemma loop_body_appends s item :
  Forall (fun b => length b = 500) (WriteBatches.writeBatches s) →
  (∀ b, WriteBatches.writeBatch_ s = Some b →
        length b = WriteBatches.currentWriteBatchWriteCount s
        ∧ (0 < length b < 500)%nat) →
  let s' := WriteBatches.loop_body [] callback s item in
  Forall (fun b => length b = 500) (WriteBatches.writeBatches s')
  ∧ (∀ b, WriteBatches.writeBatch_ s' = Some b →
          length b = WriteBatches.currentWriteBatchWriteCount s'
          ∧ (0 < length b < 500)%nat)
  ∧ concat (WriteBatches.writeBatches s')
    ++ default [] (WriteBatches.writeBatch_ s')
    = (concat (WriteBatches.writeBatches s)
       ++ default [] (WriteBatches.writeBatch_ s))
      ++ [(step (WriteBatches.closure s) item).2]
  ∧ WriteBatches.closure s' = (step (WriteBatches.closure s) item).1.
Proof.
  intros Hfull Hpart s'. subst s'. unfold WriteBatches.loop_body.
  destruct (WriteBatches.writeBatch_ s) as [b |] eqn:Hb.
  - destruct (Hpart b eq_refl) as [Hlen Hrange].
    rewrite callback_appends.
    destruct (Nat.eqb_spec (S (WriteBatches.currentWriteBatchWriteCount s)) 500)
      as [Heq | Hne]; simpl.
    + split; [| split; [done | split; [| reflexivity]]].
      * apply Forall_app. split; [assumption |]. repeat constructor.
        rewrite length_app. simpl. lia.
      * rewrite concat_app. simpl. rewrite !app_nil_r, app_assoc. reflexivity.
    + split; [assumption |]. split; [| split; [| reflexivity]].
      * intros b' [= <-]. rewrite length_app. simpl. lia.
      * rewrite app_assoc. reflexivity.
  - rewrite callback_appends. simpl.
    split; [assumption |]. split; [| split; [| reflexivity]].
    + intros b' [= <-]. simpl. lia.
    + rewrite app_nil_r. reflexivity.
Qed.

Lemma foldl_loop_body_appends items : ∀ s,
  Forall (fun b => length b = 500) (WriteBatches.writeBatches s) →
  (∀ b, WriteBatches.writeBatch_ s = Some b →
        length b = WriteBatches.currentWriteBatchWriteCount s
        ∧ (0 < length b < 500)%nat) →
  let s' := foldl (WriteBatches.loop_body [] callback) s items in
  Forall (fun b => length b = 500) (WriteBatches.writeBatches s')
  ∧ (∀ b, WriteBatches.writeBatch_ s' = Some b → (0 < length b < 500)%nat)
  ∧ concat (WriteBatches.writeBatches s')
    ++ default [] (WriteBatches.writeBatch_ s')
    = (concat (WriteBatches.writeBatches s)
       ++ default [] (WriteBatches.writeBatch_ s))
      ++ (all_writes step items (WriteBatches.closure s)).1
  ∧ WriteBatches.closure s'
    = (all_writes step items (WriteBatches.closure s)).2.
Proof.
  induction items as [| item rest IH]; intros s Hfull Hpart s'; subst s'.
  - simpl. rewrite app_nil_r. split; [assumption |].
    split; [intros b Hb; apply (Hpart b Hb) | done].
  - simpl foldl.
    destruct (loop_body_appends s item Hfull Hpart) as (Hf1 & Hp1 & Hc1 & He1).
    destruct (IH _ Hf1 Hp1) as (Hf2 & Hp2 & Hc2 & He2).
    split; [assumption |]. split; [assumption |].
    rewrite all_writes_cons. simpl. rewrite Hc2, Hc1, He2, He1.
    rewrite <- app_assoc. done.
Qed.

Lemma performWritesInBatches_appending (items : list T) (env : Closure) :
  let r := WriteBatches.performWritesInBatches [] callback items env in
  concat r.1 = (all_writes step items env).1
  ∧ r.2 = (all_writes step items env).2
  ∧ Forall (fun b => (0 < length b ≤ 500)%nat) r.1
  ∧ (∀ i b, (S i < length r.1)%nat → r.1 !! i = Some b → length b = 500)
  ∧ length r.1 = ((length items + 499) / 500)%nat.
Proof.
  intros r. subst r. unfold WriteBatches.performWritesInBatches.
  set (s0 := {| WriteBatches.writeBatches := [];
                WriteBatches.writeBatch_ := None;
                WriteBatches.currentWriteBatchWriteCount := 0;
                WriteBatches.closure := env |}).
  destruct (foldl_loop_body_appends items s0) as (Hfull & Hpart & Hcat & Henv);
    [constructor | done |].
  set (s := foldl (WriteBatches.loop_body [] callback) s0 items) in *.
  simpl in Hcat, Henv. cbn [fst snd].
  assert (Hlen : length (concat (WriteBatches.writeBatches s))
                 = (500 * length (WriteBatches.writeBatches s))%nat).
  { clear -Hfull. induction Hfull as [| b bs Hb _ IH]; [reflexivity |].
    simpl. rewrite length_app, IH, Hb. lia. }
  pose proof (f_equal length Hcat) as Hcount.
  rewrite length_app, Hlen, all_writes_length in Hcount.
  destruct (WriteBatches.writeBatch_ s) as [b |] eqn:Hb.
  - change (default [] (Some b)) with b in *.
    specialize (Hpart b eq_refl).
    split; [rewrite concat_app; simpl; rewrite app_nil_r; exact Hcat |].
    split; [exact Henv |]. split; [| split].
    + apply Forall_app. split.
      * eapply Forall_impl; [exact Hfull |]. simpl. intros; lia.
      * constructor; [lia | constructor].
    + intros i b' Hi Hb'. rewrite length_app in Hi. simpl in Hi.
      rewrite lookup_app_l in Hb' by lia.
      exact (Forall_lookup_1 _ _ _ _ Hfull Hb').
    + rewrite length_app. simpl length.
      apply (Nat.div_unique _ _ _ (length b - 1)); lia.
  - change (default [] None) with (@nil W) in *.
    rewrite !app_nil_r in *. simpl length in Hcount.
    split; [exact Hcat |]. split; [exact Henv |]. split; [| split].
    + eapply Forall_impl; [exact Hfull |]. simpl. intros; lia.
    + intros i b' _ Hb'. exact (Forall_lookup_1 _ _ _ _ Hfull Hb').
    + apply (Nat.div_unique _ _ _ 499); lia.
Qed.

(** X13.  [performWritesInBatches] with a callback that adds one write per
    item to the batch it is given: the committed batches, one after the
    other, hold the writes of all the items in the order of the items; no
    batch is empty and none has more than 500 writes; every batch but the
    last has exactly 500; and there are as many batches as the number of
    items divided by 500, rounded up (none for no item). *)
Theorem performWritesInBatches_partitions (items : list T) (env : Closure) :
  let r := WriteBatches.performWritesInBatches [] callback items env in
  concat r.1 = (all_writes step items env).1
  ∧ r.2 = (all_writes step items env).2
  ∧ Forall (fun b => (0 < length b ≤ 500)%nat) r.1
  ∧ (∀ i b, (S i < length r.1)%nat → r.1 !! i = Some b → length b = 500)
  ∧ length r.1 = ((length items + 499) / 500)%nat.
Proof. apply performWritesInBatches_appending. Qed.
End write_batches.

Lemma performWritesInBatches_partitions_witness :
  concat
    (WriteBatches.performWritesInBatches []
       (WriteBatches.numbering_callback (D := unit) None)
       ["a"; "b"; "c"] 1).1
  = [("a", WriteBatches.Sample 42 1); ("b", WriteBatches.Sample 42 2);
     ("c", WriteBatches.Sample 42 3)].
Proof.
  apply (performWritesInBatches_partitions
           (WriteBatches.numbering_callback (D := unit) None)
           (fun n ref => (S n, (ref, WriteBatches.Sample 42 n)))
           (fun env batch item => eq_refl) ["a"; "b"; "c"] 1).
Defined.

Lemma all_writes_numbering {Ref D : Type} (data : nat → WriteBatches.written D)
    (refs : list Ref) : ∀ n,
  (all_writes (fun n ref => (S n, (ref, data n))) refs n).1
  = imap (fun i ref => (ref, data (n + i))) refs.
Proof.
  induction refs as [| ref rest IH]; intros n; [reflexivity |].
  rewrite all_writes_cons. cbn [fst snd]. rewrite IH. simpl.
  rewrite Nat.add_0_r. f_equal. apply imap_ext. intros i x _. simpl.
  f_equal. f_equal. lia.
Qed.

(** X14.  The writes of [createDocumentsFromDocumentCreateCount].  Without
    [documentData], the document at position [i] of the sorted references
    (counting from 0) is written [{ sampleKey: 42, docNumber: i + 1 }]: the
    numbering runs on across the batches.  With [documentData], every
    document is written that same data.  Either way each reference is
    written once, in order, in batches of at most 500. *)
Theorem documents_are_numbered {Ref D : Type} (documentRefs : list Ref) :
  concat (WriteBatches.numbered_writes (D := D) documentRefs None)
  = imap (fun i ref => (ref, WriteBatches.Sample 42 (S i))) documentRefs
  ∧ (∀ d : D,
       concat (WriteBatches.numbered_writes documentRefs (Some d))
       = (fun ref => (ref, WriteBatches.Given d)) <$> documentRefs)
  ∧ ∀ documentData : option D,
      Forall (fun b => (0 < length b ≤ 500)%nat)
        (WriteBatches.numbered_writes documentRefs documentData)
      ∧ length (WriteBatches.numbered_writes documentRefs documentData)
        = ((length documentRefs + 499) / 500)%nat.
Proof.
  assert (Hpart : ∀ documentData : option D,
            let data n := match documentData with
                          | Some d => WriteBatches.Given d
                          | None => WriteBatches.Sample 42 n
                          end in
            concat (WriteBatches.numbered_writes documentRefs documentData)
            = imap (fun i ref => (ref, data (1 + i))) documentRefs
            ∧ Forall (fun b => (0 < length b ≤ 500)%nat)
                (WriteBatches.numbered_writes documentRefs documentData)
            ∧ length (WriteBatches.numbered_writes documentRefs documentData)
              = ((length documentRefs + 499) / 500)%nat).
  { intros documentData data.
    destruct (performWritesInBatches_appending
                (WriteBatches.numbering_callback documentData)
                (fun n ref => (S n, (ref, data n)))
                (fun env batch item => eq_refl) documentRefs 1)
      as (Hcat & _ & Hsize & _ & Hlen).
    unfold WriteBatches.numbered_writes.
    rewrite Hcat, all_writes_numbering. done. }
  split; [| split].
  - apply (Hpart None).
  - intros d. destruct (Hpart (Some d)) as [-> _].
    apply (imap_const (fun ref => (ref, WriteBatches.Given d))).
  - intros documentData. apply (Hpart documentData).
Qed.

(** * Properties of [platform.ts] and [logging.ts] *)

Section platform_facts.
Context {Data Hash Number Output Instant Options : Type}.
Implicit Types
  p q : @Platform.Platform Data Hash Number Output Instant Options.

Lemma setPlatform_all_set q (ps : list
    (@Platform.Platform Data Hash Number Output Instant Options)) :
  Platform.setPlatform_all ps (Some q)
  = (replicate (length ps)
       (Some (plain_error "setPlatform() has already been invoked")),
     Some q).
Proof.
  induction ps as [| p ps IH]; [reflexivity |].
  simpl. rewrite IH. reflexivity.
Qed.

(** X15.  The platform is set once.  Of any number of calls of
    [setPlatform], the first succeeds and every later one throws
    "setPlatform() has already been invoked" and changes nothing, so that
    the functions of the module use the platform given first.  Before the
    first call each of them throws "setPlatform() has not yet been
    invoked". *)
Theorem platform_is_set_once p (ps : list
    (@Platform.Platform Data Hash Number Output Instant Options)) :
  let r := Platform.setPlatform_all (p :: ps) None in
  r.1 = None :: replicate (length ps)
                  (Some (plain_error "setPlatform() has already been invoked"))
  ∧ r.2 = Some p
  ∧ Platform.getPlatform r.2 = inr p
  ∧ (∀ data, Platform.base64Encode data r.2
             = inr (Platform.impl_base64Encode p data))
  ∧ (∀ data, Platform.calculateHash data r.2
             = inr (Platform.impl_calculateHash p data))
  ∧ (∀ message, Platform.log message r.2
                = inr (Platform.impl_log p message))
  ∧ (∀ now, Platform.getCurrentMonotonicTimeMilliseconds now r.2
            = inr (Platform.impl_getCurrentMonotonicTimeMilliseconds p now))
  ∧ (∀ (binary : string) (data : Data) now message,
       let e := plain_error "setPlatform() has not yet been invoked" in
       Platform.base64Encode binary (None : option
      (@Platform.Platform Data Hash Number Output Instant Options)) = inl e
       ∧ Platform.calculateHash data (None : option
      (@Platform.Platform Data Hash Number Output Instant Options)) = inl e
       ∧ Platform.log message (None : option
      (@Platform.Platform Data Hash Number Output Instant Options)) = inl e
       ∧ Platform.getCurrentMonotonicTimeMilliseconds now
           (None : option
      (@Platform.Platform Data Hash Number Output Instant Options)) = inl e).
Proof.
  intros r. subst r. simpl. rewrite setPlatform_all_set. simpl.
  repeat split.
Qed.

Variable zero : Number.
Variable minus : Number → Number → Number.

Lemma getElapsedMilliseconds_all_started p start (instants : list Instant) :
  Platform.getElapsedMilliseconds_all zero minus instants (Some p) (Some start)
  = ((fun now =>
        inr (minus (Platform.impl_getCurrentMonotonicTimeMilliseconds p now)
               start)) <$> instants,
     Some start).
Proof.
  induction instants as [| now rest IH]; [reflexivity |].
  simpl. rewrite IH. reflexivity.
Qed.

Lemma getElapsedMilliseconds_all_unset (instants : list Instant)
    (start : option Number) :
  Platform.getElapsedMilliseconds_all zero minus instants
    (None : option
      (@Platform.Platform Data Hash Number Output Instant Options)) start
  = (replicate (length instants)
       (inl (plain_error "setPlatform() has not yet been invoked")),
     start).
Proof.
  induction instants as [| now rest IH]; [reflexivity |].
  simpl in *. rewrite IH. reflexivity.
Qed.

(** X16.  The first call of [getElapsedMilliseconds] after
    [resetStartTime] returns 0 and records the clock's reading as the start
    time; every later call returns the clock's reading minus that start
    time and leaves the start time as it is.  With no platform set every
    call throws and the start time is not touched. *)
Theorem elapsed_time_is_relative_to_first_call p start (first : Instant)
    (later : list Instant) :
  let clock := Platform.impl_getCurrentMonotonicTimeMilliseconds p in
  Platform.getElapsedMilliseconds_all zero minus (first :: later) (Some p)
    (Platform.resetStartTime start)
  = (inr zero :: ((fun now => inr (minus (clock now) (clock first))) <$> later),
     Some (clock first))
  ∧ Platform.getElapsedMilliseconds_all zero minus (first :: later)
      (None : option
      (@Platform.Platform Data Hash Number Output Instant Options)) start
    = (replicate (S (length later))
         (inl (plain_error "setPlatform() has not yet been invoked")),
       start).
Proof.
  intros clock. split.
  - simpl. rewrite getElapsedMilliseconds_all_started. reflexivity.
  - apply (getElapsedMilliseconds_all_unset (first :: later)).
Qed.
End platform_facts.

(** * Properties of [node/platform.ts] *)

Section toUint8Array_facts.
Variable toString : Z → string.

Lemma fill_cons i element rest :
  NodePlatform.fill toString i (element :: rest)
  = if decide (element < 0 ∨ element > 255)%Z then
      inl (plain_error
             ("data[" +:+ toString (Z.of_nat i) +:+ "] is out of range: "
              +:+ toString element))
    else
      match NodePlatform.fill toString (S i) rest with
      | inl e => inl e
      | inr stored => inr (element :: stored)
      end.
Proof. reflexivity. Qed.

Lemma fill_in_range (elements : list Z) : ∀ i,
  Forall in_byte_range elements →
  NodePlatform.fill toString i elements = inr elements.
Proof.
  induction elements as [| x rest IH]; intros i Hall; [reflexivity |].
  apply Forall_cons in Hall as [Hx Hrest]. rewrite fill_cons.
  unfold in_byte_range in Hx. destruct (decide _) as [Hout | _]; [lia |].
  rewrite IH by assumption. reflexivity.
Qed.

Lemma fill_out_of_range (before : list Z) : ∀ i element after,
  Forall in_byte_range before →
  ¬ in_byte_range element →
  NodePlatform.fill toString i (before ++ element :: after)
  = inl (plain_error
           ("data[" +:+ toString (Z.of_nat (i + length before))
            +:+ "] is out of range: " +:+ toString element)).
Proof.
  induction before as [| x rest IH]; intros i element after Hall Hout.
  - simpl app. rewrite fill_cons. unfold in_byte_range in Hout.
    destruct (decide _) as [_ | Hin]; [| lia].
    simpl length. rewrite Nat.add_0_r. reflexivity.
  - apply Forall_cons in Hall as [Hx Hrest].
    change ((x :: rest) ++ element :: after)
      with (x :: (rest ++ element :: after)).
    rewrite fill_cons. unfold in_byte_range in Hx.
    destruct (decide _) as [Hout' | _]; [lia |].
    rewrite IH by assumption. simpl length.
    replace (S i + length rest)%nat with (i + S (length rest))%nat by lia.
    reflexivity.
Qed.

(** X17.  [toUint8Array] returns a [Uint8Array] as it is.  An array of
    integers or a string whose elements or code units are all between 0 and
    255 is copied element by element.  Otherwise nothing is returned: the
    error names the first index whose element is out of range, and that
    element, both as a template literal prints a number. *)
Theorem toUint8Array_checks_range (elements : list Z) :
  (∀ bytes, NodePlatform.toUint8Array toString (NodePlatform.Uint8Array bytes)
            = inr bytes)
  ∧ (Forall in_byte_range elements →
     NodePlatform.toUint8Array toString (NodePlatform.NumberArray elements)
     = inr elements
     ∧ NodePlatform.toUint8Array toString (NodePlatform.StringData elements)
       = inr elements)
  ∧ (∀ before element after,
       elements = before ++ element :: after →
       Forall in_byte_range before →
       ¬ in_byte_range element →
       let e := plain_error
                  ("data[" +:+ toString (Z.of_nat (length before))
                   +:+ "] is out of range: " +:+ toString element) in
       NodePlatform.toUint8Array toString (NodePlatform.NumberArray elements)
       = inl e
       ∧ NodePlatform.toUint8Array toString (NodePlatform.StringData elements)
         = inl e).
Proof.
  split; [reflexivity |]. split.
  - intros Hall. unfold NodePlatform.toUint8Array.
    rewrite fill_in_range by assumption. done.
  - intros before element after -> Hall Hout e. subst e.
    unfold NodePlatform.toUint8Array.
    rewrite (fill_out_of_range before 0 element after Hall Hout). done.
Qed.
End toUint8Array_facts.

Lemma toUint8Array_checks_range_witness :
  NodePlatform.toUint8Array pretty (NodePlatform.NumberArray [1; 255; 256; -1]%Z)
  = inl (plain_error "data[2] is out of range: 256")
  ∧ NodePlatform.toUint8Array pretty (NodePlatform.StringData [104; 105]%Z)
    = inr [104; 105]%Z.
Proof.
  split.
  - destruct (proj2 (proj2 (toUint8Array_checks_range pretty
                               [1; 255; 256; -1]%Z))
                [1; 255]%Z 256%Z [-1]%Z eq_refl) as [H _].
    + repeat constructor; unfold in_byte_range; lia.
    + unfold in_byte_range. lia.
    + exact H.
  - apply (proj1 (proj2 (toUint8Array_checks_range pretty [104; 105]%Z))).
    repeat constructor; unfold in_byte_range; lia.
Defined.

(** * Properties of [firestore_helper.ts] and [node/index.ts] *)

Section cache_facts.
Context {Number V : Type}.
Variable toString : Number → string.
Implicit Types (m : gmap string V)
  (key : @FirestoreHelper.FirebaseObjectCacheKey Number).

Lemma set_keeps_entry key v m key' v' :
  FirestoreHelper.get toString key m = Some v →
  FirestoreHelper.get toString key (FirestoreHelper.set toString key' v' m).2
  = Some v.
Proof.
  unfold FirestoreHelper.get, FirestoreHelper.set. intros Hget.
  destruct (m !! FirestoreHelper.canonicalString toString key') eqn:Hk'; simpl;
    [exact Hget |].
  rewrite lookup_insert_ne; [exact Hget |]. intros Heq. congruence.
Qed.

(** X18.  A [FirebaseObjectCache] is write-once.  [set] for a key without
    an entry stores the value, which [get] then returns; [set] for a key
    that has an entry, or any key with the same canonical string, throws
    "Entry for ... already exists" and leaves the cache as it is; so
    whatever calls of [set] follow, [get] keeps returning the value stored
    first.  Keys with other canonical strings are not affected. *)
Theorem cache_is_write_once m key :
  (∀ v, FirestoreHelper.get toString key m = None →
        (FirestoreHelper.set toString key v m).1 = None
        ∧ FirestoreHelper.get toString key
            (FirestoreHelper.set toString key v m).2 = Some v)
  ∧ (∀ v key' v',
       FirestoreHelper.get toString key m = Some v →
       FirestoreHelper.canonicalString toString key'
       = FirestoreHelper.canonicalString toString key →
       FirestoreHelper.set toString key' v' m
       = (Some (plain_error
                  ("Entry for " +:+ FirestoreHelper.canonicalString toString key
                   +:+ " already exists")),
          m))
  ∧ (∀ v entries,
       FirestoreHelper.get toString key m = Some v →
       FirestoreHelper.get toString key
         (FirestoreHelper.set_all toString entries m) = Some v)
  ∧ (∀ key' v',
       FirestoreHelper.canonicalString toString key'
       ≠ FirestoreHelper.canonicalString toString key →
       FirestoreHelper.get toString key
         (FirestoreHelper.set toString key' v' m).2
       = FirestoreHelper.get toString key m).
Proof.
  split; [| split; [| split]].
  - intros v Hnone. unfold FirestoreHelper.get, FirestoreHelper.set in *.
    rewrite Hnone. simpl. rewrite lookup_insert_eq. done.
  - intros v key' v' Hget Heq.
    unfold FirestoreHelper.get, FirestoreHelper.set in *.
    rewrite Heq, Hget. reflexivity.
  - intros v entries. revert m.
    induction entries as [| [k' v'] entries IH]; intros m Hget; [exact Hget |].
    unfold FirestoreHelper.set_all in *. simpl. apply IH.
    apply set_keeps_entry. exact Hget.
  - intros key' v' Hne. unfold FirestoreHelper.get, FirestoreHelper.set.
    destruct (m !! FirestoreHelper.canonicalString toString key'); simpl;
      [done |].
    apply lookup_insert_ne. exact Hne.
Qed.

(** X19.  The canonical string tells the instances of one configuration
    apart as far as their ids print differently: when two cache keys with
    the same host, project id and API key have the same canonical string,
    either both have no instance id, or both have one and the two ids give
    the same string in a template literal.  In particular the key without
    an instance id never shares its canonical string with a key that has
    one. *)
Theorem canonicalString_separates_instances
    (k1 k2 : @FirestoreHelper.FirebaseObjectCacheKey Number) :
  FirestoreHelper.host k1 = FirestoreHelper.host k2 →
  FirestoreHelper.projectId k1 = FirestoreHelper.projectId k2 →
  FirestoreHelper.apiKey k1 = FirestoreHelper.apiKey k2 →
  FirestoreHelper.canonicalString toString k1
  = FirestoreHelper.canonicalString toString k2 →
  toString <$> FirestoreHelper.instanceId k1
  = toString <$> FirestoreHelper.instanceId k2.
Proof.
  destruct k1 as [h1 p1 a1 i1], k2 as [h2 p2 a2 i2]. simpl.
  intros -> -> ->.
  unfold FirestoreHelper.canonicalString,
    FirestoreHelper.canonicalStringWithoutInstanceId. simpl.
  intros Heq.
  apply (inj (String.append _)) in Heq.
  destruct i1 as [n1 |], i2 as [n2 |]; try done.
  injection Heq as Heq. apply (inj (String.append _)) in Heq.
  simpl. rewrite Heq. reflexivity.
Qed.
End cache_facts.

Lemma cache_is_write_once_witness :
  FirestoreHelper.get pretty
    {| FirestoreHelper.host := "prod"; FirestoreHelper.projectId := "p";
       FirestoreHelper.apiKey := "k"; FirestoreHelper.instanceId := Some 1%Z |}
    (FirestoreHelper.set_all pretty
       [({| FirestoreHelper.host := "prod"; FirestoreHelper.projectId := "p";
            FirestoreHelper.apiKey := "k";
            FirestoreHelper.instanceId := Some 1%Z |}, 8);
        ({| FirestoreHelper.host := "prod"; FirestoreHelper.projectId := "p";
            FirestoreHelper.apiKey := "k";
            FirestoreHelper.instanceId := None |}, 9)]
       {[ "prod%p%k%1" := 7 ]})
  = Some 7.
Proof.
  apply (proj1 (proj2 (proj2 (cache_is_write_once (V := nat) pretty _ _)))).
  apply lookup_singleton_eq.
Defined.

Lemma canonicalString_separates_instances_witness :
  (pretty : Z → string) <$> Some 2%Z = (pretty : Z → string) <$> Some 2%Z.
Proof.
  apply (canonicalString_separates_instances pretty
           {| FirestoreHelper.host := "qa"; FirestoreHelper.projectId := "p";
              FirestoreHelper.apiKey := "k";
              FirestoreHelper.instanceId := Some 2%Z |}
           {| FirestoreHelper.host := "qa"; FirestoreHelper.projectId := "p";
              FirestoreHelper.apiKey := "k";
              FirestoreHelper.instanceId := Some 2%Z |});
    reflexivity.
Defined.

(** X20.  [MemorySettingsStorage]: [load] returns the value saved last for
    the key, and [null] after [clear]; [save] and [clear] for one key do not
    change what [load] returns for another. *)
Theorem settings_storage_round_trip (map : gmap string string)
    (key value : string) :
  MemorySettingsStorage.load key (MemorySettingsStorage.save key value map)
  = Some value
  ∧ MemorySettingsStorage.load key (MemorySettingsStorage.clear key map) = None
  ∧ (∀ value',
       MemorySettingsStorage.save key value
         (MemorySettingsStorage.save key value' map)
       = MemorySettingsStorage.save key value map)
  ∧ ∀ other,
      other ≠ key →
      MemorySettingsStorage.load other
        (MemorySettingsStorage.save key value map)
      = MemorySettingsStorage.load other map
      ∧ MemorySettingsStorage.load other (MemorySettingsStorage.clear key map)
        = MemorySettingsStorage.load other map.
Proof.
  unfold MemorySettingsStorage.load, MemorySettingsStorage.save,
    MemorySettingsStorage.clear.
  split; [apply lookup_insert_eq |]. split; [apply lookup_delete_eq |].
  split; [intros value'; apply insert_insert_eq |].
  intros other Hne.
  rewrite lookup_insert_ne, lookup_delete_ne by done. done.
Qed.

Lemma settings_storage_round_trip_witness :
  MemorySettingsStorage.load "host"
    (MemorySettingsStorage.save "apiKey" "k"
       (MemorySettingsStorage.save "host" "qa" ∅))
  = Some "qa".
Proof.
  destruct (proj2 (proj2 (proj2
              (settings_storage_round_trip
                 (MemorySettingsStorage.save "host" "qa" ∅) "apiKey" "k")))
              "host") as [H _]; [discriminate |].
  rewrite H.
  apply (proj1 (settings_storage_round_trip ∅ "host" "qa")).
Defined.

(** * What a call returns, and what becomes of promises *)




Lemma loop_pass_keeps_settled opts st d x :
  heap (world st) !! d = Some x →
  heap (world (loop_pass opts st).2) !! d = Some x.
Proof.
  intros Hx. unfold loop_pass, alloc, CancellationToken.registerDeferred,
    CancellationToken.onCancelled.
  destruct (onChange (listener st)); [done |].
  destruct (error (listener st)); [done |].
  destruct (completed (listener st)); [done |].
  destruct (shift_loop opts (snapshots (listener st))) as [[s |] rest];
    [done |].
  pose proof (lookup_lt_Some _ _ _ Hx) as Hlt.
  simpl. destruct (CancellationToken._cancelled (cancellationToken st)); simpl.
  - rewrite list_lookup_alter_ne by lia. rewrite lookup_app_l by lia. done.
  - rewrite lookup_app_l by lia. done.
Qed.

Lemma notify_keeps_settled st d x :
  heap (world st) !! d = Some x →
  Promise.settled (Deferred.promise x) = true →
  heap (world (notify st)) !! d = Some x.
Proof.
  intros Hx Hs. unfold notify. destruct (onChange (listener st)) as [d' |];
    [| done].
  simpl. destruct (decide (d' = d)) as [-> |].
  - rewrite list_lookup_alter_eq, Hx. simpl. rewrite resolve_settled; done.
  - rewrite list_lookup_alter_ne; done.
Qed.

(** X22.  No action changes a promise that has settled, and no [Deferred]
    is ever removed from the heap: a settled [Deferred] is found unchanged
    under the same reference after any action. *)
Theorem settled_promises_are_final (a : action) (c : Config)
    (r : option result) (c' : Config) (d : nat) (x : Deferred.t unit) :
  exec a c = Some (r, c') →
  heap (world (state c)) !! d = Some x →
  Promise.settled (Deferred.promise x) = true →
  heap (world (state c')) !! d = Some x.
Proof.
  intros Ha Hx Hs. destruct a; simpl in Ha.
  - unfold waitForSnapshot in Ha.
    destruct (onChange (listener (state c))).
    + injection Ha as _ <-. exact Hx.
    + pose proof (loop_pass_keeps_settled opts (state c) d x Hx) as Hl.
      destruct (loop_pass opts (state c)) as [r1 st1].
      injection Ha as _ <-. exact Hl.
  - destruct (frames c !! i) as [f |]; [| done]. simpl in Ha.
    unfold resume in Ha.
    destruct (heap (world (state c)) !! deferred f) as [y |]; [| done].
    simpl in Ha.
    assert (Hfin : heap (world (finally_blocks f (state c)).2) !! d = Some x).
    { unfold finally_blocks. case_decide; exact Hx. }
    destruct (Deferred.promise y) as [| v | reason]; [done | |];
      destruct (finally_blocks f (state c)) as [[e |] st1]; simpl in *.
    + injection Ha as _ <-. exact Hfin.
    + pose proof (loop_pass_keeps_settled (options f) st1 d x Hfin) as Hl.
      destruct (loop_pass (options f) st1) as [r1 st2].
      injection Ha as _ <-. exact Hl.
    + injection Ha as _ <-. exact Hfin.
    + injection Ha as _ <-. exact Hfin.
  - injection Ha as _ <-. apply notify_keeps_settled; assumption.
  - injection Ha as _ <-. apply notify_keeps_settled; assumption.
  - injection Ha as _ <-. apply notify_keeps_settled; assumption.
  - injection Ha as _ <-. exact Hx.
  - injection Ha as _ <-. simpl. rewrite forEach_invoke_heap.
    apply foldl_heap_effect_settled; assumption.
  - unfold CancellationToken.onCancelled in Ha.
    destruct (CancellationToken._cancelled (cancellationToken (state c)));
      injection Ha as _ <-; exact Hx.
  - case_decide; [| done]. injection Ha as _ <-. exact Hx.
Qed.

Lemma settled_promises_are_final_witness :
  heap (world (state (default init (after [Call None; Cancel; Next snap_a]))))
    !! 0
  = Some {| Deferred._promise := Promise.rejected cancelled_error |}.
Proof.
  apply (settled_promises_are_final (Next snap_a)
           (default init (after [Call None; Cancel])) None
           (default init (after [Call None; Cancel; Next snap_a])) 0
           {| Deferred._promise := Promise.rejected cancelled_error |});
    reflexivity.
Defined.
